(** * duinobot: the Firmata board sessions and their sysex decoders

    A shallow embedding of [duinobot/firmata_boards.py]: the class-level
    sensor lists of [FirmataSerialBoard], the per-instance lazily
    allocated pin arrays, the five sysex decoders registered by
    [setup_layout], and the initialisation path of [FirmataTCPBoard].

    Python integers are [Z]; a payload ([*data]) is a [list Z]; Python
    lists are [list Z] behind a reference where identity matters;
    dictionaries are [gmap]s; a raised exception is an outcome that keeps
    the state reached so far. *)

From stdpp Require Import base numbers option list gmap strings relations.

Local Open Scope Z_scope.

(** ** Python primitives *)

Module Py.

(** The only exception the decoders themselves can raise. *)
Inductive exn : Set := IndexError.

Inductive outcome (A : Type) : Type :=
  | Return (a : A)
  | Raise (e : exn).
Arguments Return {A} a.
Arguments Raise {A} e.

(** Index normalisation of [list.__getitem__], [list.__setitem__] and
    [tuple.__getitem__]: an index in [-len, len) selects a slot (negative
    ones count from the end), anything else is an [IndexError]. *)
Definition index (len : nat) (i : Z) : option nat :=
  if bool_decide (0 ≤ i < Z.of_nat len) then Some (Z.to_nat i)
  else if bool_decide (- Z.of_nat len ≤ i < 0) then Some (Z.to_nat (Z.of_nat len + i))
  else None.

(** [xs[i]] *)
Definition getitem (xs : list Z) (i : Z) : outcome Z :=
  match index (length xs) i with
  | Some n => match xs !! n with
              | Some x => Return x
              | None => Raise IndexError
              end
  | None => Raise IndexError
  end.

(** [xs[i] = v], returning the updated list. *)
Definition setitem (xs : list Z) (i : Z) (v : Z) : outcome (list Z) :=
  match index (length xs) i with
  | Some n => Return (<[n := v]> xs)
  | None => Raise IndexError
  end.

(** [[x] * n] *)
Definition repeat_list (x : Z) (n : nat) : list Z := replicate n x.

(** [range(n)] as a tuple of integers. *)
Definition range (n : nat) : list Z := Z.of_nat <$> seq 0 n.

End Py.

Export Py.

(** ** Constants of the module *)

Definition SYSEX_PING : Z := 0x03.
Definition ANALOG_INPUT_REQUEST : Z := 0x06.
Definition DIGITAL_INPUT_REQUEST : Z := 0x07.
Definition BROADCAST_REPORT : Z := 0x09.
Definition PIN_COMMANDS : Z := 0x0F.
Definition PIN_GET_ANALOG : Z := 0x01.
Definition PIN_GET_DIGITAL : Z := 0x02.

(** ** Pin layouts

    A layout is a Python dictionary from names to tuples of pin numbers
    or a flag; the layout argument of a constructor is such a dictionary
    or [None]. *)

Inductive layout_value : Type :=
  | LTuple (pins : list Z)
  | LBool (b : bool).

Inductive py_layout : Type :=
  | LayoutNone
  | LayoutDict (d : gmap string layout_value).

(** Truth value of a layout in [if layout:]: [None] and the empty
    dictionary are false. *)
Definition truthy (layout : py_layout) : bool :=
  match layout with
  | LayoutNone => false
  | LayoutDict d => negb (bool_decide (d = ∅))
  end.

(** [BOARDS["duinobot"]] *)
Definition duinobot_layout : gmap string layout_value :=
  <["digital" := LTuple (range 19)]>
  (<["analog" := LTuple (range 7)]>
  (<["pwm" := LTuple [5; 6; 9]]>
  (<["use_ports" := LBool true]>
  (<["disabled" := LTuple [0; 1; 3; 4; 8]]> ∅)))).

Definition BOARDS : gmap string (gmap string layout_value) :=
  {["duinobot" := duinobot_layout]}.

(** [layout[key]] read as a tuple of pins (empty when absent). *)
Definition layout_pins (d : gmap string layout_value) (key : string) : list Z :=
  match d !! key with
  | Some (LTuple pins) => pins
  | _ => []
  end.

(** ** State

    [Registry] holds the four class attributes of [FirmataSerialBoard]:
    they are created once, when the class body runs, and every instance
    (of the class or of its subclass [FirmataTCPBoard]) reaches the same
    four list objects through attribute lookup. *)

Record Registry : Type := mkRegistry {
  nearest_obstacle : list Z;
  analog_value : list Z;
  digital_value : list Z;
  live_robots : list Z
}.

(** References to the list objects allocated by the lazy accessors. *)
Abbreviation loc := positive.
Abbreviation Heap := (gmap positive (list Z)).

(** Instance attributes of one board: the two dictionaries set in
    [__init__], and the pin lists [analog] and [digital] built by the
    base class's [setup_layout] (only their lengths are read here; pins
    are represented by their numbers). *)
Record Board : Type := mkBoard {
  _pin_analog_value : gmap Z loc;
  _pin_digital_value : gmap Z loc;
  analog : list Z;
  digital : list Z
}.

(** What a method call sees: the class attributes, the heap of list
    objects, and the instance it is called on. *)
Record St : Type := mkSt {
  reg : Registry;
  heap : Heap;
  self : Board
}.

Definition initial_registry : Registry :=
  {| nearest_obstacle := repeat_list (-1) 128;
     analog_value := repeat_list (-1) 128;
     digital_value := repeat_list (-1) 128;
     live_robots := repeat_list 0 128 |}.

(** ** The method monad: state, and exceptions that keep the state *)

Definition M (A : Type) : Type := St → outcome A * St.

Definition ret {A} (a : A) : M A := λ st, (Return a, st).

Definition bind {A B} (m : M A) (k : A → M B) : M B :=
  λ st, match m st with
        | (Return a, st') => k a st'
        | (Raise e, st') => (Raise e, st')
        end.

Definition lift {A} (o : outcome A) : M A := λ st, (o, st).

Declare Scope py_scope.
Delimit Scope py_scope with py.
Notation "x <- m ;; k" := (bind m (λ x, k))
  (at level 100, m at next level, right associativity) : py_scope.
Local Open Scope py_scope.

(** Item assignment on each of the class-level lists. *)
Definition store_registry (get : Registry → list Z)
    (set : list Z → Registry → Registry) (i v : Z) : M unit :=
  λ st, match setitem (get (reg st)) i v with
        | Return xs => (Return (), mkSt (set xs (reg st)) (heap st) (self st))
        | Raise e => (Raise e, st)
        end.

Definition set_nearest_obstacle (xs : list Z) (r : Registry) : Registry :=
  mkRegistry xs (analog_value r) (digital_value r) (live_robots r).
Definition set_analog_value (xs : list Z) (r : Registry) : Registry :=
  mkRegistry (nearest_obstacle r) xs (digital_value r) (live_robots r).
Definition set_digital_value (xs : list Z) (r : Registry) : Registry :=
  mkRegistry (nearest_obstacle r) (analog_value r) xs (live_robots r).
Definition set_live_robots (xs : list Z) (r : Registry) : Registry :=
  mkRegistry (nearest_obstacle r) (analog_value r) (digital_value r) xs.

(** ** The decoders of [FirmataSerialBoard] *)

Definition _handle_sysex_ping (data : list Z) : M unit :=
  most_significant <- lift (getitem data 0) ;;
  least_significant <- lift (getitem data 1) ;;
  robot <- lift (getitem data 2) ;;
  store_registry nearest_obstacle set_nearest_obstacle robot
    ((most_significant ≪ 7) + least_significant).

Definition _handle_sysex_analog (data : list Z) : M unit :=
  most_significant <- lift (getitem data 0) ;;
  least_significant <- lift (getitem data 1) ;;
  robot <- lift (getitem data 2) ;;
  store_registry analog_value set_analog_value robot
    ((most_significant ≪ 7) + least_significant).

Definition _handle_sysex_digital (data : list Z) : M unit :=
  value <- lift (getitem data 0) ;;
  robot <- lift (getitem data 1) ;;
  store_registry digital_value set_digital_value robot value.

Definition _handle_sysex_broadcast (data : list Z) : M unit :=
  robot <- lift (getitem data 0) ;;
  store_registry live_robots set_live_robots robot 1.

(** ** The lazy per-pin accessors *)

Definition gets {A} (f : St → A) : M A := λ st, (Return (f st), st).

(** Evaluating a list display or [[x] * n] creates a new list object. *)
Definition alloc (xs : list Z) : M loc :=
  λ st, let l := fresh (dom (heap st)) in
        (Return l, mkSt (reg st) (<[l := xs]> (heap st)) (self st)).

Definition set_pin_analog_value (d : gmap Z loc) (b : Board) : Board :=
  mkBoard d (_pin_digital_value b) (analog b) (digital b).
Definition set_pin_digital_value (d : gmap Z loc) (b : Board) : Board :=
  mkBoard (_pin_analog_value b) d (analog b) (digital b).

(** [d.setdefault(key, default)] on one of the two dictionaries of the
    instance.  When the key is present the stored reference is returned
    and [default], which the caller has just built and nobody else
    holds, is dropped. *)
Definition setdefault (get : Board → gmap Z loc)
    (set : gmap Z loc → Board → Board) (key : Z) (default : loc) : M loc :=
  λ st, match get (self st) !! key with
        | Some l => (Return l, mkSt (reg st) (delete default (heap st)) (self st))
        | None =>
            (Return default,
             mkSt (reg st) (heap st) (set (<[key := default]> (get (self st))) (self st)))
        end.

Definition pin_analog_value (robotid : Z) : M loc :=
  n <- gets (λ st, length (analog (self st))) ;;
  default <- alloc (repeat_list (-1) n) ;;
  setdefault _pin_analog_value set_pin_analog_value robotid default.

Definition pin_digital_value (robotid : Z) : M loc :=
  n <- gets (λ st, length (digital (self st))) ;;
  default <- alloc (repeat_list (-1) n) ;;
  setdefault _pin_digital_value set_pin_digital_value robotid default.

(** [l[i] = v] on a list object reached through a reference.  A
    reference kept in a dictionary always denotes a live list (see
    [wf_board]); the dangling case is only there to make the function
    total. *)
Definition heap_setitem (l : loc) (i v : Z) : M unit :=
  λ st, match heap st !! l with
        | Some xs =>
            match setitem xs i v with
            | Return xs' => (Return (), mkSt (reg st) (<[l := xs']> (heap st)) (self st))
            | Raise e => (Raise e, st)
            end
        | None => (Raise IndexError, st)
        end.

(** In [target[pin] = value] Python evaluates the right-hand side, then
    the accessor call, then stores. [data[0]] is read again by the
    [elif]. *)
Definition _handle_sysex_pin_commands (data : list Z) : M unit :=
  subtype <- lift (getitem data 0) ;;
  if bool_decide (subtype = PIN_GET_ANALOG) then
    most_significant <- lift (getitem data 1) ;;
    least_significant <- lift (getitem data 2) ;;
    pin <- lift (getitem data 3) ;;
    robot <- lift (getitem data 4) ;;
    let value := (most_significant ≪ 7) + least_significant in
    arr <- pin_analog_value robot ;;
    heap_setitem arr pin value
  else
    subtype' <- lift (getitem data 0) ;;
    if bool_decide (subtype' = PIN_GET_DIGITAL) then
      value <- lift (getitem data 1) ;;
      pin <- lift (getitem data 2) ;;
      robot <- lift (getitem data 3) ;;
      arr <- pin_digital_value robot ;;
      heap_setitem arr pin value
    else ret ().

(** The handlers added by [setup_layout], keyed by command byte. *)
Definition command_handlers : gmap Z (list Z → M unit) :=
  <[PIN_COMMANDS := _handle_sysex_pin_commands]>
  (<[BROADCAST_REPORT := _handle_sysex_broadcast]>
  (<[DIGITAL_INPUT_REQUEST := _handle_sysex_digital]>
  (<[ANALOG_INPUT_REQUEST := _handle_sysex_analog]>
  (<[SYSEX_PING := _handle_sysex_ping]> ∅)))).

(** Reading a slot of a list object. *)
Definition heap_getitem (h : Heap) (l : loc) (i : Z) : outcome Z :=
  match h !! l with
  | Some xs => getitem xs i
  | None => Raise IndexError
  end.

(** ** Several board sessions in one process

    The class attributes and the heap are per process; each session has
    its own instance attributes. *)

Record Process : Type := mkProcess {
  class_attrs : Registry;
  objects : Heap;
  sessions : gmap nat Board
}.

(** A method call on session [s]. *)
Definition call {A} (s : nat) (m : M A) (p : Process) : option (outcome A * Process) :=
  match sessions p !! s with
  | Some b =>
      let '(o, st) := m (mkSt (class_attrs p) (objects p) b) in
      Some (o, mkProcess (reg st) (heap st) (<[s := self st]> (sessions p)))
  | None => None
  end.

(** The decoder selected by a command byte, applied to the payload; a
    frame without a handler is dropped.  On which board the decoder
    runs is decided by the engine's handler table, see [receive]. *)
Definition dispatch (cmd : Z) (data : list Z) : M unit :=
  match command_handlers !! cmd with
  | Some handler => handler data
  | None => ret ()
  end.

(** The operations of this layer on a session: an incoming sysex frame,
    and the two public accessors. *)
Inductive op : Type :=
  | Frame (cmd : Z) (data : list Z)
  | PinAnalogValue (robotid : Z)
  | PinDigitalValue (robotid : Z).

Definition perform (o : op) : M unit :=
  match o with
  | Frame cmd data => dispatch cmd data
  | PinAnalogValue robotid => _ <- pin_analog_value robotid ;; ret ()
  | PinDigitalValue robotid => _ <- pin_digital_value robotid ;; ret ()
  end.

(** [__init__] gives a new instance two empty dictionaries.  Its pin
    lists are built by the base engine's [setup_layout] (pyfirmata, an
    external library), one pin per analog and per digital pin declared
    in the layout; the decoders only read their lengths. *)
Definition new_board (analog_pins digital_pins : list Z) : Board :=
  mkBoard ∅ ∅ analog_pins digital_pins.

Definition board_of_layout (d : gmap string layout_value) : Board :=
  new_board (layout_pins d "analog") (layout_pins d "digital").

(** One step of the process: a session is constructed, or an operation
    runs as a method of an existing board (whether it returns or raises,
    the state it reached stays).  A decoder may run on any board here,
    which covers every way the engine can route a frame. *)
Inductive step : Process → Process → Prop :=
  | step_new p s analog_pins digital_pins :
      sessions p !! s = None →
      step p (mkProcess (class_attrs p) (objects p)
                (<[s := new_board analog_pins digital_pins]> (sessions p)))
  | step_op p s o out p' :
      call s (perform o) p = Some (out, p') →
      step p p'.

Definition initial_process : Process := mkProcess initial_registry ∅ ∅.

Definition reachable (p : Process) : Prop := rtc step initial_process p.

(** ** Initialisation of [FirmataTCPBoard] *)

(** Calls into the base engine made while initialising. *)
Inductive base_call : Type :=
  | SetupLayout (layout : py_layout)
  | AutoSetup
  | Iterate.

(** [_generic_initialization]; [pending] is the number of times
    [bytes_available()] answers true before the drain loop ends. *)
Definition _generic_initialization (layout : py_layout) (pending : nat) : list base_call :=
  (if truthy layout then SetupLayout layout else AutoSetup) :: replicate pending Iterate.

Inductive board_name : Type :=
  | HostPort (robot_ip : string) (port : Z)
  | Given (name : string).

Inductive tcp_result : Type :=
  | Reraised
  | Exited (status : Z)
  | Constructed (name : board_name) (layout : py_layout) (calls : list base_call).

(** [FirmataTCPBoard.__init__]; [connected] tells whether creating and
    connecting the socket succeeded. *)
Definition FirmataTCPBoard_init (connected : bool) (pending : nat)
    (robot_ip : string) (port : Z) (layout : py_layout)
    (name : option string) (debug : bool) : tcp_result :=
  if connected then
    Constructed (match name with None => HostPort robot_ip port | Some n => Given n end)
      layout (_generic_initialization layout pending)
  else if debug then Reraised else Exited 1.

(** ** Well-formed states *)

Definition wf_registry (r : Registry) : Prop :=
  length (nearest_obstacle r) = 128%nat ∧ length (analog_value r) = 128%nat ∧
  length (digital_value r) = 128%nat ∧ length (live_robots r) = 128%nat.

(** Every reference in dictionary [d] denotes a list of [n] slots. *)
Definition arrays_ok (h : Heap) (d : gmap Z loc) (n : nat) : Prop :=
  ∀ k l, d !! k = Some l → ∃ xs, h !! l = Some xs ∧ length xs = n.

Definition wf_board (h : Heap) (b : Board) : Prop :=
  arrays_ok h (_pin_analog_value b) (length (analog b)) ∧
  arrays_ok h (_pin_digital_value b) (length (digital b)).

Definition wf_st (st : St) : Prop :=
  wf_registry (reg st) ∧ wf_board (heap st) (self st).

(** ** States to run examples on

    The registry as created by the class body, no list objects yet, and
    a fresh board with the duinobot layout. *)
Definition duinobot_board : Board := board_of_layout duinobot_layout.
Definition st0 : St := mkSt initial_registry ∅ duinobot_board.

(** ** The wire format, seen from the sender

    The peer splits a 14-bit value into its high and low 7-bit halves
    before sending; the decoders here only ever rebuild it.  This is the
    splitting the round-trip law of the specification speaks of. *)
Definition spec_split14 (v : Z) : Z * Z := (Z.land (v ≫ 7) 0x7F, Z.land v 0x7F).

(** ** Running operations on one session

    An operation that raises leaves the state it had reached; whoever
    drives the session may catch the exception and go on. *)
Fixpoint run (ops : list op) (st : St) : St :=
  match ops with
  | [] => st
  | o :: ops' => run ops' (snd (perform o st))
  end.

(** [R] relates the state before a computation to the state it leaves,
    whether it returns or raises. *)
Definition preserves {A} (R : St → St → Prop) (m : M A) : Prop :=
  ∀ st, R st (snd (m st)).

(** The entries of the two dictionaries of the instance stay. *)
Definition dicts_kept (st st' : St) : Prop :=
  (∀ k l, _pin_analog_value (self st) !! k = Some l →
          _pin_analog_value (self st') !! k = Some l) ∧
  (∀ k l, _pin_digital_value (self st) !! k = Some l →
          _pin_digital_value (self st') !! k = Some l).

(** The slots of [live_robots] that hold 1 keep holding 1. *)
Definition live_kept (st st' : St) : Prop :=
  ∀ n, live_robots (reg st) !! n = Some 1 → live_robots (reg st') !! n = Some 1.

(** The same, for the class attributes of a process. *)
Definition process_live_kept (p p' : Process) : Prop :=
  ∀ n, live_robots (class_attrs p) !! n = Some 1 →
       live_robots (class_attrs p') !! n = Some 1.

(** A process with two sessions, both on the duinobot layout. *)
Definition process0 : Process :=
  mkProcess initial_registry ∅ (<[0%nat := duinobot_board]> {[1%nat := duinobot_board]}).

(** ** What a caller reads through a session

    [board.nearest_obstacle[robot]] and its three siblings, and
    [board.pin_analog_value(robot)[pin]], [board.pin_digital_value(robot)[pin]]. *)
Definition read_nearest_obstacle (robot : Z) : M Z :=
  λ st, (getitem (nearest_obstacle (reg st)) robot, st).
Definition read_analog_value (robot : Z) : M Z :=
  λ st, (getitem (analog_value (reg st)) robot, st).
Definition read_digital_value (robot : Z) : M Z :=
  λ st, (getitem (digital_value (reg st)) robot, st).
Definition read_live_robots (robot : Z) : M Z :=
  λ st, (getitem (live_robots (reg st)) robot, st).

Definition read_pin_analog (robot pin : Z) : M Z :=
  arr <- pin_analog_value robot ;; λ st, (heap_getitem (heap st) arr pin, st).
Definition read_pin_digital (robot pin : Z) : M Z :=
  arr <- pin_digital_value robot ;; λ st, (heap_getitem (heap st) arr pin, st).

(** The result of a call on a session, without the process it leaves. *)
Definition observe {A} (s : nat) (m : M A) (p : Process) : option (outcome A) :=
  fst <$> call s m p.

(** ** Well-formed processes *)

Inductive kind : Set := KAnalog | KDigital.

Global Instance kind_eq_dec : EqDecision kind.
Proof. solve_decision. Defined.

Definition dict_of (kd : kind) (b : Board) : gmap Z loc :=
  match kd with
  | KAnalog => _pin_analog_value b
  | KDigital => _pin_digital_value b
  end.

(** Every reference kept by a session denotes a live list of the right
    length, and no list object is kept twice: not by two sessions, not
    under two keys, not in both dictionaries. *)
Record wf_process (p : Process) : Prop := mk_wf_process {
  wf_class : wf_registry (class_attrs p);
  wf_alloc : ∀ s b, sessions p !! s = Some b → wf_board (objects p) b;
  wf_sep : ∀ s1 b1 kd1 k1 s2 b2 kd2 k2 l,
    sessions p !! s1 = Some b1 → dict_of kd1 b1 !! k1 = Some l →
    sessions p !! s2 = Some b2 → dict_of kd2 b2 !! k2 = Some l →
    s1 = s2 ∧ kd1 = kd2 ∧ k1 = k2
}.

(** The process seen from a method running on session [s]: the state of
    the call, put back among the other sessions. *)
Definition assemble (s : nat) (others : gmap nat Board) (st : St) : Process :=
  mkProcess (reg st) (heap st) (<[s := self st]> others).

Definition inv_kept (s : nat) (others : gmap nat Board) (st st' : St) : Prop :=
  wf_process (assemble s others st) → wf_process (assemble s others st').

(** List objects that the instance does not keep are left alone, and
    nothing is deallocated. *)
Definition frame_kept (st st' : St) : Prop :=
  (∀ l, is_Some (heap st !! l) → is_Some (heap st' !! l)) ∧
  (∀ l, is_Some (heap st !! l) →
        (∀ kd k, dict_of kd (self st') !! k ≠ Some l) →
        heap st' !! l = heap st !! l) ∧
  dicts_kept st st' ∧
  analog (self st') = analog (self st) ∧
  digital (self st') = digital (self st).

Definition pins_of (kd : kind) (b : Board) : list Z :=
  match kd with
  | KAnalog => analog b
  | KDigital => digital b
  end.

Definition set_dict (kd : kind) (d : gmap Z loc) (b : Board) : Board :=
  match kd with
  | KAnalog => set_pin_analog_value d b
  | KDigital => set_pin_digital_value d b
  end.

(** What a successful store through a lazy accessor leaves behind. *)
Definition stored_in (get : Board → gmap Z loc) (st st' : St)
    (robot pin v : Z) (n : nat) : Prop :=
  ∃ arr xs,
    get (self st') !! robot = Some arr ∧
    heap st' !! arr = Some xs ∧
    length xs = n ∧
    getitem xs pin = Return v ∧
    reg st' = reg st ∧
    analog (self st') = analog (self st) ∧
    digital (self st') = digital (self st).

(** ** Further notions used to describe the decoders *)

(** [P] holds after a computation if it held before. *)
Definition keeps (P : St → Prop) (st st' : St) : Prop := P st → P st'.

(** No list object disappears or changes its number of slots. *)
Definition objects_kept (st st' : St) : Prop :=
  ∀ l xs, heap st !! l = Some xs →
          ∃ xs', heap st' !! l = Some xs' ∧ length xs' = length xs.

(** The instance keeps no list object twice. *)
Definition sep_board (b : Board) : Prop :=
  ∀ kd1 k1 kd2 k2 l,
    dict_of kd1 b !! k1 = Some l → dict_of kd2 b !! k2 = Some l →
    kd1 = kd2 ∧ k1 = k2.

(** The lazy accessor of each kind, and the list a caller finds behind
    the reference it returns: [list(board.pin_analog_value(robot))],
    [list(board.pin_digital_value(robot))]. *)
Definition accessor (kd : kind) : Z → M loc :=
  match kd with
  | KAnalog => pin_analog_value
  | KDigital => pin_digital_value
  end.

Definition pin_array (kd : kind) (robot : Z) (st : St) : list Z :=
  match accessor kd robot st with
  | (Return arr, st') => default [] (heap st' !! arr)
  | (Raise _, _) => []
  end.

(** The caller-side read of one slot, [board.pin_..._value(robot)[pin]],
    by kind. *)
Definition read_pin (kd : kind) : Z → Z → M Z :=
  match kd with
  | KAnalog => read_pin_analog
  | KDigital => read_pin_digital
  end.

(** ** Value ranges *)

(** A byte as sysex frames carry them: the high bit is reserved. *)
Definition seven_bit (x : Z) : Prop := 0 ≤ x ≤ 127.

Definition seven_bit_op (o : op) : Prop :=
  match o with
  | Frame cmd data => Forall seven_bit data
  | PinAnalogValue _ | PinDigitalValue _ => True
  end.

(** The liveness flags are 0 or 1. *)
Definition flags_binary (r : Registry) : Prop :=
  ∀ n v, live_robots r !! n = Some v → v = 0 ∨ v = 1.

(** Every reading is the initial -1 or a value a 7-bit frame can carry:
    14 bits for distances and analog values, 7 bits for digital
    values; slots of per-pin arrays hold one or the other. *)
Definition ranged (r : Registry) (h : Heap) : Prop :=
  (∀ n v, nearest_obstacle r !! n = Some v → -1 ≤ v ≤ 16383) ∧
  (∀ n v, analog_value r !! n = Some v → -1 ≤ v ≤ 16383) ∧
  (∀ n v, digital_value r !! n = Some v → -1 ≤ v ≤ 127) ∧
  (∀ l xs n v, h !! l = Some xs → xs !! n = Some v → -1 ≤ v ≤ 16383).

(** Steps of a process whose incoming frames carry 7-bit bytes only. *)
Inductive step7 : Process → Process → Prop :=
  | step7_new p s analog_pins digital_pins :
      sessions p !! s = None →
      step7 p (mkProcess (class_attrs p) (objects p)
                 (<[s := new_board analog_pins digital_pins]> (sessions p)))
  | step7_op p s o out p' :
      seven_bit_op o →
      call s (perform o) p = Some (out, p') →
      step7 p p'.

(** The class lists are left as they were. *)
Definition same_reg (st st' : St) : Prop := reg st' = reg st.

(** A board on which a pin command has already stored something. *)
Definition st1 : St := snd (_handle_sysex_pin_commands [0x02; 1; 3; 4] st0).

(** ** Construction of a serial session

    [FirmataSerialBoard.__init__]: what the call of the base
    constructor did ([serial.SerialException] is the only exception
    caught), whether the device path exists and whether it can be read
    and written, and the debug flag decide what is printed and how the
    constructor ends. *)

Inductive open_outcome : Set := Opened | RaisedSerialException | RaisedOther.

Inductive serial_result : Set :=
  | SerialConstructed
  | SerialPropagated
  | SerialExited (status : Z).

Definition msg_no_permission : string :=
  "No tiene permisos para acceder al dispositivo, verifique si su usuario pertenece al grupo dialout.".
Definition msg_no_connection : string :=
  "No es posible conectarse al robot, por favor enchufe y configure el XBee.".

Definition FirmataSerialBoard_init (opening : open_outcome)
    (path_exists accessible debug : bool) : list string * serial_result :=
  match opening with
  | Opened => ([], SerialConstructed)
  | RaisedOther => ([], SerialPropagated)
  | RaisedSerialException =>
      ((if path_exists && negb accessible
        then [msg_no_permission] else [msg_no_connection]),
       if debug then SerialPropagated else SerialExited 1)
  end.

(** ** The request loop of [images/square_wheel.py]

    The Tk thread polls a queue of callbacks: [_tk_attend_requests] is
    run by Tk each time its timer fires, [Senses.__init__] puts the
    instance's [run] on the queue from the main thread.  The calls made
    on [_tk_root] are kept as a log; [armed] counts the pending timers
    for [_tk_attend_requests]. *)

Module SquareWheel.

Definition TK_AFTER_INTERVAL : Z := 10.

Inductive callback : Set :=
  | AttendRequests
  | SensesRun (instance : nat).

Inductive tk_call : Set :=
  | After (ms : Z) (cb : callback)
  | Quit.

Record Gui : Set := mkGui {
  _terminate_thread : bool;
  _request_queue : list callback;
  tk_log : list tk_call;
  armed : nat
}.

Inductive tick_result : Set := Returned | SystemExit.

(** [_tk_root.after(ms, cb)] *)
Definition after (ms : Z) (cb : callback) (g : Gui) : Gui :=
  mkGui (_terminate_thread g) (_request_queue g) (tk_log g ++ [After ms cb])
    (match cb with AttendRequests => S (armed g) | SensesRun _ => armed g end).

(** [_tk_attend_requests]: quit and exit when asked to terminate;
    otherwise take at most one request without blocking, hand it to Tk,
    and in every case ([finally]) arm the timer again. *)
Definition _tk_attend_requests (g : Gui) : tick_result * Gui :=
  if _terminate_thread g then
    (SystemExit, mkGui true (_request_queue g) (tk_log g ++ [Quit]) (armed g))
  else
    match _request_queue g with
    | [] => (Returned, after TK_AFTER_INTERVAL AttendRequests g)
    | request :: rest =>
        (Returned,
         after TK_AFTER_INTERVAL AttendRequests
           (after 0 request
              (mkGui (_terminate_thread g) rest (tk_log g) (armed g))))
    end.

(** [Senses.__init__]: [_request_queue.put(self.run)] *)
Definition Senses_init (instance : nat) (g : Gui) : Gui :=
  mkGui (_terminate_thread g) (_request_queue g ++ [SensesRun instance])
    (tk_log g) (armed g).

(** [_tk_loop_cleanup] sets the event (and then waits for the thread). *)
Definition _tk_loop_cleanup (g : Gui) : Gui :=
  mkGui true (_request_queue g) (tk_log g) (armed g).

(** The handler installed for SIGINT is
    [lambda signal, frame: _tk_loop_cleanup]: it evaluates to the
    function and does not call it. *)
Definition sigint_handler (g : Gui) : Gui := g.

(** What can happen once [_tk_loop] has armed the first timer. *)
Inductive event : Set :=
  | NewSenses (instance : nat)
  | TimerFires
  | Cleanup
  | Sigint.

Definition handle (e : event) (g : Gui) : Gui :=
  match e with
  | NewSenses instance => Senses_init instance g
  | TimerFires =>
      match armed g with
      | O => g
      | S n =>
          snd (_tk_attend_requests
                 (mkGui (_terminate_thread g) (_request_queue g) (tk_log g) n))
      end
  | Cleanup => _tk_loop_cleanup g
  | Sigint => sigint_handler g
  end.

Fixpoint play (es : list event) (g : Gui) : Gui :=
  match es with
  | [] => g
  | e :: es' => play es' (handle e g)
  end.

(** After [_tk_loop] started: [after(TK_AFTER_INTERVAL, _tk_attend_requests)]
    has been called once, nothing is queued. *)
Definition started : Gui :=
  mkGui false [] [After TK_AFTER_INTERVAL AttendRequests] 1.

(** The requests handed to Tk so far ([after(0, request)]), in order. *)
Definition handed (log : list tk_call) : list callback :=
  omap (λ c, match c with
             | After ms cb => if bool_decide (ms = 0) then Some cb else None
             | Quit => None
             end) log.

(** The requests put by the [Senses] created so far, in order. *)
Definition created (es : list event) : list callback :=
  omap (λ e, match e with NewSenses i => Some (SensesRun i) | _ => None end) es.

End SquareWheel.

(** One poll timer is pending until the loop has quit, none afterwards,
    the loop only quits once asked to terminate, and the queue holds
    nothing but the [run] methods that [Senses.__init__] puts there. *)
Definition sw_inv (g : SquareWheel.Gui) : Prop :=
  (SquareWheel.Quit ∉ SquareWheel.tk_log g → SquareWheel.armed g = 1%nat) ∧
  (SquareWheel.Quit ∈ SquareWheel.tk_log g →
     SquareWheel.armed g = 0%nat ∧ SquareWheel._terminate_thread g = true) ∧
  (∀ cb, cb ∈ SquareWheel._request_queue g → cb ≠ SquareWheel.AttendRequests).

(** ** The handler table of the protocol engine

    The base engine (pyfirmata, an external library) keeps its handler
    table, [_command_handlers], as a class attribute of [Board]: there
    is one table for the whole process.  [add_cmd_handler] stores into
    it the method bound to the board that registers it, so what
    [setup_layout] registers is a decoder together with its board, and a
    later [setup_layout] of another board replaces the five entries.
    When a frame arrives on a board, that board's [iterate] looks the
    command byte up in the shared table and calls what it finds. *)

Record Engine : Type := mkEngine {
  process : Process;
  _command_handlers : gmap Z (nat * (list Z → M unit))
}.

(** [self.add_cmd_handler(cmd, func)] with [func] a method of [self]. *)
Definition add_cmd_handler (self : nat) (cmd : Z) (func : list Z → M unit)
    (table : gmap Z (nat * (list Z → M unit))) : gmap Z (nat * (list Z → M unit)) :=
  <[cmd := (self, func)]> table.

(** The five registrations of [FirmataSerialBoard.setup_layout], in the
    order of the source. *)
Definition setup_layout (self : nat)
    (table : gmap Z (nat * (list Z → M unit))) : gmap Z (nat * (list Z → M unit)) :=
  add_cmd_handler self PIN_COMMANDS _handle_sysex_pin_commands
    (add_cmd_handler self BROADCAST_REPORT _handle_sysex_broadcast
       (add_cmd_handler self DIGITAL_INPUT_REQUEST _handle_sysex_digital
          (add_cmd_handler self ANALOG_INPUT_REQUEST _handle_sysex_analog
             (add_cmd_handler self SYSEX_PING _handle_sysex_ping table)))).

(** Constructing board [s]: [__init__] gives it empty dictionaries and
    the base constructor runs [setup_layout] (directly or at the end of
    [auto_setup]). *)
Definition construct (s : nat) (analog_pins digital_pins : list Z) (e : Engine) : Engine :=
  mkEngine
    (mkProcess (class_attrs (process e)) (objects (process e))
       (<[s := new_board analog_pins digital_pins]> (sessions (process e))))
    (setup_layout s (_command_handlers e)).

(** A sysex frame arrives on board [r]: the handler found in the shared
    table runs as a method of the board that registered it; without a
    handler the frame is dropped. *)
Definition receive (r : nat) (cmd : Z) (data : list Z) (e : Engine) :
    option (outcome unit * Engine) :=
  match sessions (process e) !! r with
  | None => None
  | Some _ =>
      match _command_handlers e !! cmd with
      | None => Some (Return (), e)
      | Some (owner, handler) =>
          match call owner (handler data) (process e) with
          | Some (out, p') => Some (out, mkEngine p' (_command_handlers e))
          | None => None
          end
      end
  end.

(** What can happen to the engine: a board is constructed, a frame
    arrives on a board, or a caller uses an accessor of a board. *)
Inductive engine_step : Engine → Engine → Prop :=
  | engine_construct e s analog_pins digital_pins :
      sessions (process e) !! s = None →
      engine_step e (construct s analog_pins digital_pins e)
  | engine_receive e r cmd data out e' :
      receive r cmd data e = Some (out, e') →
      engine_step e e'
  | engine_accessor e s kd robotid out p' :
      call s (accessor kd robotid) (process e) = Some (out, p') →
      engine_step e (mkEngine p' (_command_handlers e)).

Definition initial_engine : Engine := mkEngine initial_process ∅.

Definition engine_reachable (e : Engine) : Prop := rtc engine_step initial_engine e.

(** Every entry of the table is the decoder of its command byte, bound
    to board [owner]. *)
Definition bound_to (owner : nat) (table : gmap Z (nat * (list Z → M unit))) : Prop :=
  ∀ cmd, table !! cmd = (λ handler, (owner, handler)) <$> command_handlers !! cmd.

(** Nothing is registered before the first board exists; afterwards all
    five decoders are bound to one existing board. *)
Definition engine_inv (e : Engine) : Prop :=
  reachable (process e) ∧
  ((sessions (process e) = ∅ ∧ _command_handlers e = ∅) ∨
   (∃ owner, is_Some (sessions (process e) !! owner) ∧
             bound_to owner (_command_handlers e))).

(** Two boards on the duinobot layout, board 0 constructed first. *)
Definition engine2 : Engine :=
  construct 1 (layout_pins duinobot_layout "analog") (layout_pins duinobot_layout "digital")
    (construct 0 (layout_pins duinobot_layout "analog")
       (layout_pins duinobot_layout "digital") initial_engine).

(** The engine after a frame has arrived on board [r] (unchanged when
    there is no such board). *)
Definition after_receive (r : nat) (cmd : Z) (data : list Z) (e : Engine) : Engine :=
  match receive r cmd data e with
  | Some (_, e') => e'
  | None => e
  end.

(** A run with two boards: board 0 is constructed, a broadcast for
    robot 7 and a get-digital pin command for robot 4 arrive; board 1 is
    constructed, and a get-analog pin command for robot 4 arrives. *)
Definition engine3 : Engine :=
  after_receive 0 0x0F [0x01; 0; 5; 2; 4]
    (construct 1 (layout_pins duinobot_layout "analog")
       (layout_pins duinobot_layout "digital")
       (after_receive 0 0x0F [0x02; 1; 3; 4]
          (after_receive 0 0x09 [7]
             (construct 0 (layout_pins duinobot_layout "analog")
                (layout_pins duinobot_layout "digital") initial_engine)))).

(** * Properties *)

(** ** Indexing *)

Lemma index_nonneg (len : nat) (i : Z) :
  0 ≤ i < Z.of_nat len → index len i = Some (Z.to_nat i).
Proof. intros Hi. unfold index. by rewrite bool_decide_eq_true_2. Qed.

Lemma index_beyond (len : nat) (i : Z) :
  Z.of_nat len ≤ i → index len i = None.
Proof.
  intros Hi. unfold index.
  rewrite !bool_decide_eq_false_2; [done | lia | lia].
Qed.

Lemma getitem_nonneg (xs : list Z) (i x : Z) :
  0 ≤ i → xs !! Z.to_nat i = Some x → getitem xs i = Return x.
Proof.
  intros Hi Hx. unfold getitem.
  rewrite index_nonneg; [by rewrite Hx |].
  apply lookup_lt_Some in Hx. lia.
Qed.

Lemma getitem_beyond (xs : list Z) (i : Z) :
  Z.of_nat (length xs) ≤ i → getitem xs i = Raise IndexError.
Proof. intros Hi. unfold getitem. by rewrite index_beyond. Qed.

Lemma setitem_nonneg (xs : list Z) (i v : Z) :
  0 ≤ i < Z.of_nat (length xs) → setitem xs i v = Return (<[Z.to_nat i := v]> xs).
Proof. intros Hi. unfold setitem. by rewrite index_nonneg. Qed.

Lemma setitem_beyond (xs : list Z) (i v : Z) :
  Z.of_nat (length xs) ≤ i → setitem xs i v = Raise IndexError.
Proof. intros Hi. unfold setitem. by rewrite index_beyond. Qed.

(** Item assignment never changes the length of a list. *)
Lemma setitem_length (xs xs' : list Z) (i v : Z) :
  setitem xs i v = Return xs' → length xs' = length xs.
Proof.
  unfold setitem. destruct (index _ _); [|done].
  intros [= <-]. apply length_insert.
Qed.

Lemma getitem_insert_same (xs : list Z) (i v : Z) :
  0 ≤ i < Z.of_nat (length xs) → getitem (<[Z.to_nat i := v]> xs) i = Return v.
Proof.
  intros Hi. apply getitem_nonneg; [lia |].
  apply list_lookup_insert_eq. lia.
Qed.

Lemma getitem_insert_other (xs : list Z) (i j v : Z) :
  0 ≤ i → 0 ≤ j → i ≠ j → getitem (<[Z.to_nat i := v]> xs) j = getitem xs j.
Proof.
  intros Hi Hj Hne. unfold getitem. rewrite length_insert.
  destruct (index (length xs) j) as [n|] eqn:Hn; [|done].
  assert (n = Z.to_nat j) as ->.
  { unfold index in Hn. repeat case_bool_decide; simplify_eq; [done | lia]. }
  rewrite list_lookup_insert_ne; [done | lia].
Qed.

(** ** The 14-bit reconstruction *)

Lemma shift7_add_range (msb lsb : Z) :
  0 ≤ msb ≤ 127 → 0 ≤ lsb ≤ 127 → 0 ≤ (msb ≪ 7) + lsb ≤ 16383.
Proof. intros Hm Hl. rewrite Z.shiftl_mul_pow2 by lia. lia. Qed.

Lemma testbit_7bit_high (lsb n : Z) :
  0 ≤ lsb ≤ 127 → 7 ≤ n → Z.testbit lsb n = false.
Proof.
  intros Hl Hn. destruct (decide (lsb = 0)) as [->|Hne].
  - apply Z.bits_0.
  - apply Z.bits_above_log2; [lia |].
    assert (Z.log2 lsb < 7); [apply Z.log2_lt_pow2; lia | lia].
Qed.

Lemma land_shift7_7bit (msb lsb : Z) :
  0 ≤ lsb ≤ 127 → Z.land (msb ≪ 7) lsb = 0.
Proof.
  intros Hl. apply Z.bits_inj'. intros n Hn.
  rewrite Z.land_spec, Z.bits_0.
  destruct (decide (n < 7)) as [Hlt|Hge].
  - rewrite Z.shiftl_spec_low by lia. done.
  - rewrite (testbit_7bit_high lsb n) by lia. apply andb_false_r.
Qed.

(** On 7-bit halves, adding the low half is the same as or-ing it in. *)
Lemma shift7_add_is_lor (msb lsb : Z) :
  0 ≤ lsb ≤ 127 → (msb ≪ 7) + lsb = Z.lor (msb ≪ 7) lsb.
Proof.
  intros Hl. pose proof (land_shift7_7bit msb lsb Hl) as Hland.
  rewrite Z.add_nocarry_lxor by done. by apply Z.lxor_lor.
Qed.

(** ** Reading a payload *)

Lemma getitem_0 (x : Z) (xs : list Z) : getitem (x :: xs) 0 = Return x.
Proof. by apply getitem_nonneg. Qed.

Lemma getitem_1 (x0 x : Z) (xs : list Z) : getitem (x0 :: x :: xs) 1 = Return x.
Proof. by apply getitem_nonneg. Qed.

Lemma getitem_2 (x0 x1 x : Z) (xs : list Z) :
  getitem (x0 :: x1 :: x :: xs) 2 = Return x.
Proof. by apply getitem_nonneg. Qed.

Lemma getitem_3 (x0 x1 x2 x : Z) (xs : list Z) :
  getitem (x0 :: x1 :: x2 :: x :: xs) 3 = Return x.
Proof. by apply getitem_nonneg. Qed.

Lemma getitem_4 (x0 x1 x2 x3 x : Z) (xs : list Z) :
  getitem (x0 :: x1 :: x2 :: x3 :: x :: xs) 4 = Return x.
Proof. by apply getitem_nonneg. Qed.

Lemma bind_lift_Return {A B} (a : A) (k : A → M B) (st : St) :
  bind (lift (Return a)) k st = k a st.
Proof. done. Qed.

(** Steps through the leading payload reads of a decoder applied to a
    payload given as an explicit list. *)
Ltac read_payload :=
  rewrite ?getitem_0, ?getitem_1, ?getitem_2, ?getitem_3, ?getitem_4;
  rewrite ?bind_lift_Return.

Lemma store_registry_in_range get set (i v : Z) (st : St) :
  0 ≤ i < Z.of_nat (length (get (reg st))) →
  store_registry get set i v st =
    (Return (), mkSt (set (<[Z.to_nat i := v]> (get (reg st))) (reg st)) (heap st) (self st)).
Proof. intros Hi. unfold store_registry. by rewrite setitem_nonneg. Qed.

(** ** Ping and analog decoders *)

Lemma ping_eq (st : St) (msb lsb robot : Z) :
  length (nearest_obstacle (reg st)) = 128%nat → 0 ≤ robot ≤ 127 →
  _handle_sysex_ping [msb; lsb; robot] st =
    (Return (),
     mkSt (set_nearest_obstacle
             (<[Z.to_nat robot := (msb ≪ 7) + lsb]> (nearest_obstacle (reg st))) (reg st))
          (heap st) (self st)).
Proof.
  intros Hlen Hr. unfold _handle_sysex_ping. read_payload.
  apply store_registry_in_range. lia.
Qed.

Lemma analog_eq (st : St) (msb lsb robot : Z) :
  length (analog_value (reg st)) = 128%nat → 0 ≤ robot ≤ 127 →
  _handle_sysex_analog [msb; lsb; robot] st =
    (Return (),
     mkSt (set_analog_value
             (<[Z.to_nat robot := (msb ≪ 7) + lsb]> (analog_value (reg st))) (reg st))
          (heap st) (self st)).
Proof.
  intros Hlen Hr. unfold _handle_sysex_analog. read_payload.
  apply store_registry_in_range. lia.
Qed.

(** The command bytes select the decoders as [setup_layout] binds them. *)
Lemma dispatch_ping : dispatch 0x03 = _handle_sysex_ping.
Proof. reflexivity. Qed.
Lemma dispatch_analog : dispatch 0x06 = _handle_sysex_analog.
Proof. reflexivity. Qed.
Lemma dispatch_digital : dispatch 0x07 = _handle_sysex_digital.
Proof. reflexivity. Qed.
Lemma dispatch_broadcast : dispatch 0x09 = _handle_sysex_broadcast.
Proof. reflexivity. Qed.
Lemma dispatch_pin_commands : dispatch 0x0F = _handle_sysex_pin_commands.
Proof. reflexivity. Qed.

Lemma wf_initial_registry : wf_registry initial_registry.
Proof. by repeat split. Qed.

(** C1. For every payload [msb, lsb, robotId] of 7-bit bytes, the ping
    decoder (command 0x03) returns and leaves [(msb << 7) + lsb], a value
    in [0, 16383] that is also [(msb << 7) | lsb], in
    [nearest_obstacle[robotId]]; the analog decoder (command 0x06) does
    the same for [analog_value[robotId]]; and Ping(msb=1, lsb=0, robot=2)
    leaves 128 in [nearest_obstacle[2]]. *)
Theorem ping_analog_reconstruct_14bit (st : St) (msb lsb robot : Z) :
  wf_registry (reg st) →
  0 ≤ msb ≤ 127 → 0 ≤ lsb ≤ 127 → 0 ≤ robot ≤ 127 →
  0 ≤ (msb ≪ 7) + lsb ≤ 16383 ∧
  (msb ≪ 7) + lsb = Z.lor (msb ≪ 7) lsb ∧
  (∃ st', dispatch 0x03 [msb; lsb; robot] st = (Return (), st') ∧
          getitem (nearest_obstacle (reg st')) robot = Return ((msb ≪ 7) + lsb)) ∧
  (∃ st', dispatch 0x06 [msb; lsb; robot] st = (Return (), st') ∧
          getitem (analog_value (reg st')) robot = Return ((msb ≪ 7) + lsb)) ∧
  (∃ st', dispatch 0x03 [1; 0; 2] st = (Return (), st') ∧
          getitem (nearest_obstacle (reg st')) 2 = Return 128).
Proof.
  intros (Hno & Han & _ & _) Hm Hl Hr.
  split; [by apply shift7_add_range |].
  split; [by apply shift7_add_is_lor |].
  rewrite dispatch_ping, dispatch_analog.
  split; [|split].
  - eexists. split; [by apply ping_eq |]. simpl.
    apply getitem_insert_same. lia.
  - eexists. split; [by apply analog_eq |]. simpl.
    apply getitem_insert_same. lia.
  - eexists. split; [apply ping_eq; [done | lia] |]. simpl.
    apply (getitem_insert_same _ 2 128). lia.
Qed.

Lemma ping_analog_reconstruct_14bit_witness :
  wf_registry (reg st0) ∧ 0 ≤ 1 ≤ 127 ∧ 0 ≤ 0 ≤ 127 ∧ 0 ≤ 2 ≤ 127 ∧
  (∃ st', dispatch 0x03 [1; 0; 2] st0 = (Return (), st') ∧
          getitem (nearest_obstacle (reg st')) 2 = Return 128).
Proof.
  assert (wf_registry (reg st0)) as Hwf by apply wf_initial_registry.
  assert (0 ≤ 1 ≤ 127) as H1 by lia.
  assert (0 ≤ 0 ≤ 127) as H0 by lia.
  assert (0 ≤ 2 ≤ 127) as H2 by lia.
  do 4 (split; [done |]).
  exact (proj2 (proj2 (proj2 (proj2
           (ping_analog_reconstruct_14bit st0 1 0 2 Hwf H1 H0 H2))))).
Defined.

(** ** Round trip of the 14-bit encoding *)

Lemma split14_shift7_add (msb lsb : Z) :
  0 ≤ msb ≤ 127 → 0 ≤ lsb ≤ 127 → spec_split14 ((msb ≪ 7) + lsb) = (msb, lsb).
Proof.
  intros Hm Hl. unfold spec_split14.
  change 0x7F with (Z.ones 7). rewrite !Z.land_ones by lia.
  rewrite Z.shiftr_div_pow2, Z.shiftl_mul_pow2 by lia.
  change (2 ^ 7) with 128. f_equal.
  - rewrite Z.div_add_l by lia. rewrite (Z.div_small lsb) by lia.
    rewrite Z.add_0_r. apply Z.mod_small. lia.
  - rewrite Z.add_comm, Z.mod_add by lia. apply Z.mod_small. lia.
Qed.

(** C2. For 7-bit [msb] and [lsb], the value the ping decoder rebuilds
    from them lies in [0, 16383] and splits again into exactly
    [(msb, lsb)]; so two different pairs never rebuild the same value. *)
Theorem reconstruct_split_roundtrip (st : St) (msb lsb robot : Z) :
  wf_registry (reg st) →
  0 ≤ msb ≤ 127 → 0 ≤ lsb ≤ 127 → 0 ≤ robot ≤ 127 →
  ∃ st' v,
    _handle_sysex_ping [msb; lsb; robot] st = (Return (), st') ∧
    getitem (nearest_obstacle (reg st')) robot = Return v ∧
    v = (msb ≪ 7) + lsb ∧
    0 ≤ v ≤ 16383 ∧
    spec_split14 v = (msb, lsb) ∧
    (∀ msb' lsb', 0 ≤ msb' ≤ 127 → 0 ≤ lsb' ≤ 127 →
       (msb' ≪ 7) + lsb' = v → msb' = msb ∧ lsb' = lsb).
Proof.
  intros (Hno & _) Hm Hl Hr.
  eexists _, ((msb ≪ 7) + lsb). split; [by apply ping_eq |].
  split; [simpl; apply getitem_insert_same; lia |].
  split; [done |].
  split; [by apply shift7_add_range |].
  split; [by apply split14_shift7_add |].
  intros msb' lsb' Hm' Hl' Heq.
  pose proof (split14_shift7_add msb lsb Hm Hl) as H1.
  pose proof (split14_shift7_add msb' lsb' Hm' Hl') as H2.
  rewrite Heq, H1 in H2. by simplify_eq.
Qed.

Lemma reconstruct_split_roundtrip_witness :
  wf_registry (reg st0) ∧ 0 ≤ 1 ≤ 127 ∧ 0 ≤ 0 ≤ 127 ∧ 0 ≤ 2 ≤ 127 ∧
  ∃ st' v,
    _handle_sysex_ping [1; 0; 2] st0 = (Return (), st') ∧
    getitem (nearest_obstacle (reg st')) 2 = Return v ∧
    v = 128 ∧ spec_split14 v = (1, 0).
Proof.
  assert (wf_registry (reg st0)) as Hwf by apply wf_initial_registry.
  assert (0 ≤ 1 ≤ 127) as H1 by lia.
  assert (0 ≤ 0 ≤ 127) as H0 by lia.
  assert (0 ≤ 2 ≤ 127) as H2 by lia.
  destruct (reconstruct_split_roundtrip st0 1 0 2 Hwf H1 H0 H2)
    as (st' & v & Hrun & Hget & Hv & _ & Hsplit & _).
  do 4 (split; [done |]).
  exists st', v. by repeat split.
Defined.

(** ** The lazy accessors *)

Lemma fresh_loc_unused (h : Heap) : h !! fresh (dom h) = None.
Proof. apply not_elem_of_dom, is_fresh. Qed.

Lemma St_eta (st : St) : mkSt (reg st) (heap st) (self st) = st.
Proof. by destruct st. Qed.

(** Key present: the stored reference comes back and nothing changes. *)
Lemma lazy_present get set (key : Z) (xs : list Z) (l : loc) (st : St) :
  get (self st) !! key = Some l →
  bind (alloc xs) (λ default, setdefault get set key default) st = (Return l, st).
Proof.
  intros Hl. unfold bind, alloc, setdefault. simpl. rewrite Hl.
  rewrite delete_insert_id by apply fresh_loc_unused. by rewrite St_eta.
Qed.

(** Key absent: a fresh list is allocated, stored under the key and
    returned. *)
Lemma lazy_absent get set (key : Z) (xs : list Z) (st : St) :
  get (self st) !! key = None →
  bind (alloc xs) (λ default, setdefault get set key default) st =
    (Return (fresh (dom (heap st))),
     mkSt (reg st) (<[fresh (dom (heap st)) := xs]> (heap st))
          (set (<[key := fresh (dom (heap st))]> (get (self st))) (self st))).
Proof. intros Hl. unfold bind, alloc, setdefault. simpl. by rewrite Hl. Qed.

Lemma pin_analog_value_present (robotid : Z) (l : loc) (st : St) :
  _pin_analog_value (self st) !! robotid = Some l →
  pin_analog_value robotid st = (Return l, st).
Proof. intros Hl. unfold pin_analog_value. by apply lazy_present. Qed.

Lemma pin_digital_value_present (robotid : Z) (l : loc) (st : St) :
  _pin_digital_value (self st) !! robotid = Some l →
  pin_digital_value robotid st = (Return l, st).
Proof. intros Hl. unfold pin_digital_value. by apply lazy_present. Qed.

Lemma pin_analog_value_absent (robotid : Z) (st : St) :
  _pin_analog_value (self st) !! robotid = None →
  pin_analog_value robotid st =
    (Return (fresh (dom (heap st))),
     mkSt (reg st)
          (<[fresh (dom (heap st)) := repeat_list (-1) (length (analog (self st)))]> (heap st))
          (set_pin_analog_value
             (<[robotid := fresh (dom (heap st))]> (_pin_analog_value (self st))) (self st))).
Proof. intros Hl. unfold pin_analog_value. by apply lazy_absent. Qed.

Lemma pin_digital_value_absent (robotid : Z) (st : St) :
  _pin_digital_value (self st) !! robotid = None →
  pin_digital_value robotid st =
    (Return (fresh (dom (heap st))),
     mkSt (reg st)
          (<[fresh (dom (heap st)) := repeat_list (-1) (length (digital (self st)))]> (heap st))
          (set_pin_digital_value
             (<[robotid := fresh (dom (heap st))]> (_pin_digital_value (self st))) (self st))).
Proof. intros Hl. unfold pin_digital_value. by apply lazy_absent. Qed.

Lemma heap_setitem_in_range (l : loc) (i v : Z) (xs : list Z) (st : St) :
  heap st !! l = Some xs → 0 ≤ i < Z.of_nat (length xs) →
  heap_setitem l i v st =
    (Return (), mkSt (reg st) (<[l := <[Z.to_nat i := v]> xs]> (heap st)) (self st)).
Proof. intros Hl Hi. unfold heap_setitem. by rewrite Hl, setitem_nonneg. Qed.

Lemma heap_setitem_beyond (l : loc) (i v : Z) (xs : list Z) (st : St) :
  heap st !! l = Some xs → Z.of_nat (length xs) ≤ i →
  heap_setitem l i v st = (Raise IndexError, st).
Proof. intros Hl Hi. unfold heap_setitem. by rewrite Hl, setitem_beyond. Qed.

(** ** Pin commands *)

Lemma pin_get_analog_in_range (st : St) (msb lsb pin robot : Z) :
  wf_board (heap st) (self st) →
  0 ≤ pin < Z.of_nat (length (analog (self st))) →
  ∃ st',
    _handle_sysex_pin_commands [0x01; msb; lsb; pin; robot] st = (Return (), st') ∧
    stored_in _pin_analog_value st st' robot pin ((msb ≪ 7) + lsb)
      (length (analog (self st))).
Proof.
  intros [Ha _] Hpin. unfold _handle_sysex_pin_commands. read_payload.
  rewrite bool_decide_eq_true_2 by done. read_payload. cbv zeta.
  unfold bind at 1.
  destruct (_pin_analog_value (self st) !! robot) as [l|] eqn:Hl.
  - rewrite (pin_analog_value_present _ l) by done.
    destruct (Ha _ _ Hl) as (xs & Hxs & Hlen).
    rewrite (heap_setitem_in_range _ _ _ xs) by (done || lia).
    eexists. split; [done |]. exists l, (<[Z.to_nat pin := (msb ≪ 7) + lsb]> xs).
    simpl. rewrite lookup_insert_eq, length_insert.
    repeat split; try done. apply getitem_insert_same. lia.
  - rewrite pin_analog_value_absent by done.
    erewrite heap_setitem_in_range;
      [ | simpl; apply lookup_insert_eq
        | unfold repeat_list; rewrite length_replicate; lia ].
    eexists. split; [done |]. eexists _, _. simpl.
    rewrite !lookup_insert_eq, length_insert.
    unfold repeat_list. rewrite length_replicate.
    repeat split; try done.
    apply getitem_insert_same. rewrite length_replicate. lia.
Qed.

Lemma pin_get_digital_in_range (st : St) (value pin robot : Z) :
  wf_board (heap st) (self st) →
  0 ≤ pin < Z.of_nat (length (digital (self st))) →
  ∃ st',
    _handle_sysex_pin_commands [0x02; value; pin; robot] st = (Return (), st') ∧
    stored_in _pin_digital_value st st' robot pin value (length (digital (self st))).
Proof.
  intros [_ Hd] Hpin. unfold _handle_sysex_pin_commands. read_payload.
  rewrite bool_decide_eq_false_2 by done. read_payload.
  rewrite bool_decide_eq_true_2 by done. read_payload.
  unfold bind at 1.
  destruct (_pin_digital_value (self st) !! robot) as [l|] eqn:Hl.
  - rewrite (pin_digital_value_present _ l) by done.
    destruct (Hd _ _ Hl) as (xs & Hxs & Hlen).
    rewrite (heap_setitem_in_range _ _ _ xs) by (done || lia).
    eexists. split; [done |]. exists l, (<[Z.to_nat pin := value]> xs).
    simpl. rewrite lookup_insert_eq, length_insert.
    repeat split; try done. apply getitem_insert_same. lia.
  - rewrite pin_digital_value_absent by done.
    erewrite heap_setitem_in_range;
      [ | simpl; apply lookup_insert_eq
        | unfold repeat_list; rewrite length_replicate; lia ].
    eexists. split; [done |]. eexists _, _. simpl.
    rewrite !lookup_insert_eq, length_insert.
    unfold repeat_list. rewrite length_replicate.
    repeat split; try done.
    apply getitem_insert_same. rewrite length_replicate. lia.
Qed.

(** A pin index at or beyond the pin count makes the store raise, once
    the array has been looked up or allocated. *)
Lemma pin_get_analog_beyond (st : St) (msb lsb pin robot : Z) :
  wf_board (heap st) (self st) →
  Z.of_nat (length (analog (self st))) ≤ pin →
  fst (_handle_sysex_pin_commands [0x01; msb; lsb; pin; robot] st) = Raise IndexError.
Proof.
  intros [Ha _] Hpin. unfold _handle_sysex_pin_commands. read_payload.
  rewrite bool_decide_eq_true_2 by done. read_payload. cbv zeta.
  unfold bind at 1.
  destruct (_pin_analog_value (self st) !! robot) as [l|] eqn:Hl.
  - rewrite (pin_analog_value_present _ l) by done.
    destruct (Ha _ _ Hl) as (xs & Hxs & Hlen).
    by rewrite (heap_setitem_beyond _ _ _ xs) by (done || lia).
  - rewrite pin_analog_value_absent by done.
    erewrite heap_setitem_beyond;
      [ done | simpl; apply lookup_insert_eq
      | unfold repeat_list; rewrite length_replicate; lia ].
Qed.

Lemma pin_get_digital_beyond (st : St) (value pin robot : Z) :
  wf_board (heap st) (self st) →
  Z.of_nat (length (digital (self st))) ≤ pin →
  fst (_handle_sysex_pin_commands [0x02; value; pin; robot] st) = Raise IndexError.
Proof.
  intros [_ Hd] Hpin. unfold _handle_sysex_pin_commands. read_payload.
  rewrite bool_decide_eq_false_2 by done. read_payload.
  rewrite bool_decide_eq_true_2 by done. read_payload.
  unfold bind at 1.
  destruct (_pin_digital_value (self st) !! robot) as [l|] eqn:Hl.
  - rewrite (pin_digital_value_present _ l) by done.
    destruct (Hd _ _ Hl) as (xs & Hxs & Hlen).
    by rewrite (heap_setitem_beyond _ _ _ xs) by (done || lia).
  - rewrite pin_digital_value_absent by done.
    erewrite heap_setitem_beyond;
      [ done | simpl; apply lookup_insert_eq
      | unfold repeat_list; rewrite length_replicate; lia ].
Qed.

Lemma wf_st0 : wf_st st0.
Proof. split; [apply wf_initial_registry |]. by split; intros k l Hl. Qed.

(** After a store, the accessor hands out the array that was written. *)
Lemma stored_in_analog (st st' : St) (robot pin v : Z) (n : nat) :
  stored_in _pin_analog_value st st' robot pin v n →
  ∃ arr xs, pin_analog_value robot st' = (Return arr, st') ∧
            heap st' !! arr = Some xs ∧ getitem xs pin = Return v ∧ length xs = n.
Proof.
  intros (arr & xs & Hd & Hh & Hlen & Hget & _).
  exists arr, xs. by rewrite (pin_analog_value_present _ arr).
Qed.

Lemma stored_in_digital (st st' : St) (robot pin v : Z) (n : nat) :
  stored_in _pin_digital_value st st' robot pin v n →
  ∃ arr xs, pin_digital_value robot st' = (Return arr, st') ∧
            heap st' !! arr = Some xs ∧ getitem xs pin = Return v ∧ length xs = n.
Proof.
  intros (arr & xs & Hd & Hh & Hlen & Hget & _).
  exists arr, xs. by rewrite (pin_digital_value_present _ arr).
Qed.

(** C3, as amended. For a pin index below the configured pin count: a
    pin-commands payload [0x01, msb, lsb, pin, robotId] makes the decoder
    return with [(msb << 7) + lsb] in slot [pin] of the array that
    [pin_analog_value(robotId)] hands out; a payload
    [0x02, value, pin, robotId] leaves [value] in slot [pin] of
    [pin_digital_value(robotId)]; both arrays have as many slots as the
    board has analog, respectively digital, pins.  In particular, on a
    board with more than three digital pins,
    PinCommand(GET_DIGITAL, value=1, pin=3, robot=4) leaves 1 in
    [pin_digital_value(4)[3]]. *)
Theorem pin_commands_store_in_range (st : St) (msb lsb value pin robot : Z) :
  wf_board (heap st) (self st) →
  (0 ≤ pin < Z.of_nat (length (analog (self st))) →
   ∃ st' arr xs,
     dispatch 0x0F [0x01; msb; lsb; pin; robot] st = (Return (), st') ∧
     pin_analog_value robot st' = (Return arr, st') ∧
     heap st' !! arr = Some xs ∧
     getitem xs pin = Return ((msb ≪ 7) + lsb) ∧
     length xs = length (analog (self st))) ∧
  (0 ≤ pin < Z.of_nat (length (digital (self st))) →
   ∃ st' arr xs,
     dispatch 0x0F [0x02; value; pin; robot] st = (Return (), st') ∧
     pin_digital_value robot st' = (Return arr, st') ∧
     heap st' !! arr = Some xs ∧
     getitem xs pin = Return value ∧
     length xs = length (digital (self st))) ∧
  (3 < Z.of_nat (length (digital (self st))) →
   ∃ st' arr xs,
     dispatch 0x0F [0x02; 1; 3; 4] st = (Return (), st') ∧
     pin_digital_value 4 st' = (Return arr, st') ∧
     heap st' !! arr = Some xs ∧
     getitem xs 3 = Return 1 ∧
     length xs = length (digital (self st))).
Proof.
  intros Hwf. rewrite dispatch_pin_commands. split; [|split].
  - intros Hpin.
    destruct (pin_get_analog_in_range st msb lsb pin robot Hwf Hpin) as (st' & Hrun & Hst).
    destruct (stored_in_analog _ _ _ _ _ _ Hst) as (arr & xs & ?).
    by exists st', arr, xs.
  - intros Hpin.
    destruct (pin_get_digital_in_range st value pin robot Hwf Hpin) as (st' & Hrun & Hst).
    destruct (stored_in_digital _ _ _ _ _ _ Hst) as (arr & xs & ?).
    by exists st', arr, xs.
  - intros Hpin.
    destruct (pin_get_digital_in_range st 1 3 4 Hwf) as (st' & Hrun & Hst); [lia |].
    destruct (stored_in_digital _ _ _ _ _ _ Hst) as (arr & xs & ?).
    by exists st', arr, xs.
Qed.

Lemma pin_commands_store_in_range_witness :
  wf_board (heap st0) (self st0) ∧
  0 ≤ 3 < Z.of_nat (length (analog (self st0))) ∧
  0 ≤ 3 < Z.of_nat (length (digital (self st0))) ∧
  length (digital (self st0)) = 19%nat ∧
  ∃ st' arr xs,
    dispatch 0x0F [0x02; 1; 3; 4] st0 = (Return (), st') ∧
    pin_digital_value 4 st' = (Return arr, st') ∧
    heap st' !! arr = Some xs ∧
    getitem xs 3 = Return 1 ∧
    length xs = length (digital (self st0)).
Proof.
  assert (wf_board (heap st0) (self st0)) as Hwf by apply wf_st0.
  assert (0 ≤ 3 < Z.of_nat (length (analog (self st0)))) as Ha by (vm_compute; by split).
  assert (0 ≤ 3 < Z.of_nat (length (digital (self st0)))) as Hd by (vm_compute; by split).
  do 3 (split; [done |]). split; [reflexivity |].
  exact (proj1 (proj2 (pin_commands_store_in_range st0 0 5 1 3 4 Hwf)) Hd).
Defined.

(** C3, as stated, fails for a pin index that the board does not have:
    with the duinobot layout (seven analog pins) the payload
    [0x01, 0, 5, 100, 4] makes the decoder raise [IndexError]; the array
    for robot 4 has been allocated by then, and it has no slot 100. *)
Lemma pin_commands_pin_beyond_layout :
  wf_st st0 ∧
  fst (dispatch 0x0F [0x01; 0; 5; 100; 4] st0) = Raise IndexError ∧
  ∃ arr xs,
    let st' := snd (dispatch 0x0F [0x01; 0; 5; 100; 4] st0) in
    pin_analog_value 4 st' = (Return arr, st') ∧
    heap st' !! arr = Some xs ∧
    length xs = 7%nat ∧
    getitem xs 100 = Raise IndexError.
Proof.
  split; [apply wf_st0 |]. split; [by vm_compute |].
  exists 1%positive, (repeat_list (-1) 7). by vm_compute.
Qed.

(** ** Relating the state before and after a computation *)

Section Preserves.
Context (R : St → St → Prop) `{!PreOrder R}.

Lemma preserves_ret {A} (a : A) : preserves R (ret a).
Proof. intros st. simpl. reflexivity. Qed.

Lemma preserves_lift {A} (o : outcome A) : preserves R (lift o).
Proof. intros st. simpl. reflexivity. Qed.

Lemma preserves_gets {A} (f : St → A) : preserves R (gets f).
Proof. intros st. simpl. reflexivity. Qed.

Lemma preserves_bind {A B} (m : M A) (k : A → M B) :
  preserves R m → (∀ a, preserves R (k a)) → preserves R (bind m k).
Proof.
  intros Hm Hk st. unfold bind. specialize (Hm st).
  destruct (m st) as [[a|e] st1]; simpl in *; [|done].
  etrans; [exact Hm | apply Hk].
Qed.

Lemma preserves_if {A} (b : bool) (m1 m2 : M A) :
  preserves R m1 → preserves R m2 → preserves R (if b then m1 else m2).
Proof. by destruct b. Qed.

(** A relation every operation preserves holds along every run. *)
Lemma preserves_run (ops : list op) (st : St) :
  (∀ o, preserves R (perform o)) → R st (run ops st).
Proof.
  intros Hop. revert st. induction ops as [|o ops IH]; intros st; simpl.
  - reflexivity.
  - etrans; [apply (Hop o) | apply IH].
Qed.
End Preserves.

(** Reduces a preservation goal about a decoder to its primitive
    stores, which are looked up among the hypotheses. *)
Ltac preserves_steps :=
  unfold _handle_sysex_ping, _handle_sysex_analog, _handle_sysex_digital,
    _handle_sysex_broadcast, _handle_sysex_pin_commands;
  repeat first
    [ done
    | progress cbv zeta
    | apply (preserves_ret _)
    | apply (preserves_lift _)
    | apply (preserves_gets _)
    | apply (preserves_if _)
    | apply (preserves_bind _); [| intros ?] ].

(** Whatever the command byte, [dispatch] runs one of the five decoders
    or drops the frame. *)
Lemma dispatch_cases (P : M unit → Prop) (cmd : Z) (data : list Z) :
  P (_handle_sysex_ping data) → P (_handle_sysex_analog data) →
  P (_handle_sysex_digital data) → P (_handle_sysex_broadcast data) →
  P (_handle_sysex_pin_commands data) → P (ret ()) →
  P (dispatch cmd data).
Proof.
  intros Hping Han Hdig Hbc Hpin Hnone. unfold dispatch, command_handlers.
  repeat (rewrite lookup_insert; case_decide; [done |]).
  by rewrite lookup_empty.
Qed.

Global Instance dicts_kept_preorder : PreOrder dicts_kept.
Proof.
  split.
  - by intros st.
  - intros st1 st2 st3 [Ha1 Hd1] [Ha2 Hd2]. split; eauto.
Qed.

Global Instance live_kept_preorder : PreOrder live_kept.
Proof.
  split.
  - by intros st n Hn.
  - intros st1 st2 st3 H1 H2 n Hn. eauto.
Qed.

Lemma store_registry_self get set (i v : Z) (st : St) :
  self (snd (store_registry get set i v st)) = self st ∧
  heap (snd (store_registry get set i v st)) = heap st.
Proof. unfold store_registry. by destruct (setitem _ _ _). Qed.

Lemma heap_setitem_self (l : loc) (i v : Z) (st : St) :
  self (snd (heap_setitem l i v st)) = self st ∧
  reg (snd (heap_setitem l i v st)) = reg st.
Proof.
  unfold heap_setitem. destruct (heap st !! l); [|done].
  by destruct (setitem _ _ _).
Qed.

Lemma dicts_kept_same_self (st st' : St) : self st' = self st → dicts_kept st st'.
Proof. intros Heq. unfold dicts_kept. by rewrite Heq. Qed.

Lemma live_kept_same_reg (st st' : St) : reg st' = reg st → live_kept st st'.
Proof. intros Heq. unfold live_kept. by rewrite Heq. Qed.

Lemma dicts_kept_store_registry get set (i v : Z) :
  preserves dicts_kept (store_registry get set i v).
Proof. intros st. apply dicts_kept_same_self, store_registry_self. Qed.

Lemma dicts_kept_heap_setitem (l : loc) (i v : Z) :
  preserves dicts_kept (heap_setitem l i v).
Proof. intros st. apply dicts_kept_same_self, heap_setitem_self. Qed.

Lemma dicts_kept_pin_analog_value (robotid : Z) :
  preserves dicts_kept (pin_analog_value robotid).
Proof.
  intros st. destruct (_pin_analog_value (self st) !! robotid) as [l|] eqn:Hl.
  - by rewrite (pin_analog_value_present _ l).
  - rewrite pin_analog_value_absent by done. split; simpl; [|done].
    intros k l' Hk. rewrite lookup_insert_ne; [done | congruence].
Qed.

Lemma dicts_kept_pin_digital_value (robotid : Z) :
  preserves dicts_kept (pin_digital_value robotid).
Proof.
  intros st. destruct (_pin_digital_value (self st) !! robotid) as [l|] eqn:Hl.
  - by rewrite (pin_digital_value_present _ l).
  - rewrite pin_digital_value_absent by done. split; simpl; [done |].
    intros k l' Hk. rewrite lookup_insert_ne; [done | congruence].
Qed.

Lemma dicts_kept_perform (o : op) : preserves dicts_kept (perform o).
Proof.
  pose proof dicts_kept_store_registry. pose proof dicts_kept_heap_setitem.
  pose proof dicts_kept_pin_analog_value. pose proof dicts_kept_pin_digital_value.
  destruct o as [cmd data| |]; simpl.
  - apply dispatch_cases; preserves_steps.
  - preserves_steps.
  - preserves_steps.
Qed.

(** C4. On a board that has no array yet for a robot id, the accessor
    allocates a list object that did not exist before, with one slot per
    configured analog (respectively digital) pin, every slot -1, stores
    it under the id and returns it; afterwards, whatever operations run
    on the session in between, the accessor returns that same object and
    changes nothing. *)
Theorem lazy_accessor_allocates_once (st : St) (robotid : Z) :
  (_pin_analog_value (self st) !! robotid = None →
   ∃ arr st1,
     pin_analog_value robotid st = (Return arr, st1) ∧
     heap st !! arr = None ∧
     heap st1 !! arr = Some (repeat_list (-1) (length (analog (self st)))) ∧
     length (repeat_list (-1) (length (analog (self st)))) = length (analog (self st)) ∧
     (∀ x, x ∈ repeat_list (-1) (length (analog (self st))) → x = -1) ∧
     _pin_analog_value (self st1) !! robotid = Some arr ∧
     ∀ ops, pin_analog_value robotid (run ops st1) = (Return arr, run ops st1)) ∧
  (_pin_digital_value (self st) !! robotid = None →
   ∃ arr st1,
     pin_digital_value robotid st = (Return arr, st1) ∧
     heap st !! arr = None ∧
     heap st1 !! arr = Some (repeat_list (-1) (length (digital (self st)))) ∧
     length (repeat_list (-1) (length (digital (self st)))) = length (digital (self st)) ∧
     (∀ x, x ∈ repeat_list (-1) (length (digital (self st))) → x = -1) ∧
     _pin_digital_value (self st1) !! robotid = Some arr ∧
     ∀ ops, pin_digital_value robotid (run ops st1) = (Return arr, run ops st1)).
Proof.
  split; intros Hnone.
  - eexists _, _. split; [by apply pin_analog_value_absent |].
    split; [apply fresh_loc_unused |]. simpl.
    split; [apply lookup_insert_eq |].
    split; [apply length_replicate |].
    split; [intros x; apply elem_of_replicate_inv |].
    split; [apply lookup_insert_eq |].
    intros ops. apply pin_analog_value_present.
    apply (preserves_run dicts_kept ops _ dicts_kept_perform).
    simpl. apply lookup_insert_eq.
  - eexists _, _. split; [by apply pin_digital_value_absent |].
    split; [apply fresh_loc_unused |]. simpl.
    split; [apply lookup_insert_eq |].
    split; [apply length_replicate |].
    split; [intros x; apply elem_of_replicate_inv |].
    split; [apply lookup_insert_eq |].
    intros ops. apply pin_digital_value_present.
    apply (preserves_run dicts_kept ops _ dicts_kept_perform).
    simpl. apply lookup_insert_eq.
Qed.

Lemma lazy_accessor_allocates_once_witness :
  _pin_analog_value (self st0) !! 4 = None ∧
  _pin_digital_value (self st0) !! 4 = None ∧
  (∃ arr st1,
     pin_analog_value 4 st0 = (Return arr, st1) ∧
     heap st1 !! arr = Some (repeat_list (-1) 7) ∧
     pin_analog_value 4 (run [Frame 0x0F [0x01; 0; 5; 2; 4]] st1) =
       (Return arr, run [Frame 0x0F [0x01; 0; 5; 2; 4]] st1)) ∧
  (∃ arr st1,
     pin_digital_value 4 st0 = (Return arr, st1) ∧
     heap st1 !! arr = Some (repeat_list (-1) 19) ∧
     pin_digital_value 4 (run [] st1) = (Return arr, run [] st1)).
Proof.
  assert (_pin_analog_value (self st0) !! 4 = None) as Ha by reflexivity.
  assert (_pin_digital_value (self st0) !! 4 = None) as Hd by reflexivity.
  do 2 (split; [done |]).
  destruct (lazy_accessor_allocates_once st0 4) as [Han Hdig]. split.
  - destruct (Han Ha) as (arr & st1 & Hrun & _ & Hheap & _ & _ & _ & Hagain).
    exists arr, st1. split; [done |]. split; [exact Hheap | apply Hagain].
  - destruct (Hdig Hd) as (arr & st1 & Hrun & _ & Hheap & _ & _ & _ & Hagain).
    exists arr, st1. split; [done |]. split; [exact Hheap | apply Hagain].
Defined.

(** ** Liveness flags *)

Lemma live_kept_store_live (i : Z) :
  preserves live_kept (store_registry live_robots set_live_robots i 1).
Proof.
  intros st n Hn. unfold store_registry, setitem.
  destruct (index _ _) as [m|]; simpl; [|done].
  destruct (decide (m = n)) as [->|Hne].
  - apply list_lookup_insert_eq. by apply lookup_lt_Some in Hn.
  - by rewrite list_lookup_insert_ne.
Qed.

Lemma live_kept_store_other get set (i v : Z) :
  (∀ xs r, live_robots (set xs r) = live_robots r) →
  preserves live_kept (store_registry get set i v).
Proof.
  intros Hset st n Hn. unfold store_registry.
  destruct (setitem _ _ _); simpl; [by rewrite Hset | done].
Qed.

Lemma live_kept_heap_setitem (l : loc) (i v : Z) :
  preserves live_kept (heap_setitem l i v).
Proof. intros st. apply live_kept_same_reg, heap_setitem_self. Qed.

Lemma pin_analog_value_reg (robotid : Z) (st : St) :
  reg (snd (pin_analog_value robotid st)) = reg st.
Proof.
  destruct (_pin_analog_value (self st) !! robotid) as [l|] eqn:Hl.
  - by rewrite (pin_analog_value_present _ l).
  - by rewrite pin_analog_value_absent.
Qed.

Lemma pin_digital_value_reg (robotid : Z) (st : St) :
  reg (snd (pin_digital_value robotid st)) = reg st.
Proof.
  destruct (_pin_digital_value (self st) !! robotid) as [l|] eqn:Hl.
  - by rewrite (pin_digital_value_present _ l).
  - by rewrite pin_digital_value_absent.
Qed.

Lemma live_kept_perform (o : op) : preserves live_kept (perform o).
Proof.
  pose proof live_kept_store_live.
  pose proof (λ i v, live_kept_store_other nearest_obstacle set_nearest_obstacle i v
                       (λ _ _, eq_refl)).
  pose proof (λ i v, live_kept_store_other analog_value set_analog_value i v
                       (λ _ _, eq_refl)).
  pose proof (λ i v, live_kept_store_other digital_value set_digital_value i v
                       (λ _ _, eq_refl)).
  pose proof live_kept_heap_setitem.
  assert (∀ r, preserves live_kept (pin_analog_value r))
    by (intros r st; apply live_kept_same_reg, pin_analog_value_reg).
  assert (∀ r, preserves live_kept (pin_digital_value r))
    by (intros r st; apply live_kept_same_reg, pin_digital_value_reg).
  destruct o as [cmd data| |]; simpl.
  - apply dispatch_cases; preserves_steps.
  - preserves_steps.
  - preserves_steps.
Qed.

Lemma step_live_kept (p p' : Process) : step p p' → process_live_kept p p'.
Proof.
  intros [p0 s a d Hs | p0 s o out p1 Hcall]; [by intros n Hn |].
  unfold call in Hcall. destruct (sessions p0 !! s) as [b|]; [|done].
  pose proof (live_kept_perform o (mkSt (class_attrs p0) (objects p0) b)) as Hkept.
  destruct (perform o _) as [out' st']. simplify_eq. exact Hkept.
Qed.

Lemma steps_live_kept (p p' : Process) : rtc step p p' → process_live_kept p p'.
Proof.
  induction 1 as [p | p1 p2 p3 Hstep _ IH]; [by intros n Hn |].
  intros n Hn. by apply IH, (step_live_kept p1 p2).
Qed.

Lemma getitem_nonneg_inv (xs : list Z) (i x : Z) :
  0 ≤ i → getitem xs i = Return x → xs !! Z.to_nat i = Some x.
Proof.
  intros Hi. unfold getitem, index.
  case_bool_decide; [| case_bool_decide; [lia | done]].
  destruct (xs !! Z.to_nat i); [by intros [= ->] | done].
Qed.

Lemma broadcast_eq (st : St) (robot : Z) :
  length (live_robots (reg st)) = 128%nat → 0 ≤ robot ≤ 127 →
  _handle_sysex_broadcast [robot] st =
    (Return (),
     mkSt (set_live_robots (<[Z.to_nat robot := 1]> (live_robots (reg st))) (reg st))
          (heap st) (self st)).
Proof.
  intros Hlen Hr. unfold _handle_sysex_broadcast. read_payload.
  apply store_registry_in_range. lia.
Qed.

(** C5. The liveness flag is monotonic: once a broadcast frame (command
    0x09) for a robot id has been handled on some session, the flag of
    that id is 1, and it is still 1 after any further steps of the
    process (frames of any command with any payload, on any session,
    returning or raising; accessor calls; new sessions).  More generally
    every flag that is 1 stays 1. *)
Theorem live_robots_monotonic (p p1 p2 : Process) (s : nat) (robot : Z)
    (out : outcome unit) :
  wf_registry (class_attrs p) → 0 ≤ robot ≤ 127 →
  call s (dispatch 0x09 [robot]) p = Some (out, p1) →
  rtc step p1 p2 →
  getitem (live_robots (class_attrs p1)) robot = Return 1 ∧
  getitem (live_robots (class_attrs p2)) robot = Return 1 ∧
  (∀ r, 0 ≤ r → getitem (live_robots (class_attrs p1)) r = Return 1 →
        getitem (live_robots (class_attrs p2)) r = Return 1).
Proof.
  intros (_ & _ & _ & Hlen) Hr Hcall Hsteps.
  assert (∀ r, 0 ≤ r → getitem (live_robots (class_attrs p1)) r = Return 1 →
               getitem (live_robots (class_attrs p2)) r = Return 1) as Hmono.
  { intros r Hr0 Hget. apply getitem_nonneg; [done |].
    apply (steps_live_kept p1 p2 Hsteps). by apply getitem_nonneg_inv. }
  assert (getitem (live_robots (class_attrs p1)) robot = Return 1) as Hset.
  { unfold call in Hcall. destruct (sessions p !! s) as [b|]; [|done].
    rewrite dispatch_broadcast, broadcast_eq in Hcall by done.
    simplify_eq. simpl. apply getitem_insert_same. lia. }
  split; [done |]. split; [|done]. apply Hmono; [lia | done].
Qed.

Lemma live_robots_monotonic_witness :
  wf_registry (class_attrs process0) ∧ 0 ≤ 7 ≤ 127 ∧
  ∃ p1 p2,
    call 0 (dispatch 0x09 [7]) process0 = Some (Return (), p1) ∧
    call 1 (perform (Frame 0x03 [1; 0; 7])) p1 = Some (Return (), p2) ∧
    rtc step p1 p2 ∧
    getitem (live_robots (class_attrs p2)) 7 = Return 1.
Proof.
  assert (wf_registry (class_attrs process0)) as Hwf by apply wf_initial_registry.
  assert (0 ≤ 7 ≤ 127) as H7 by lia.
  do 2 (split; [done |]).
  destruct (call 0 (dispatch 0x09 [7]) process0) as [[out p1]|] eqn:H1;
    [| by vm_compute in H1].
  destruct (call 1 (perform (Frame 0x03 [1; 0; 7])) p1) as [[out2 p2]|] eqn:H2;
    [| apply (f_equal (fmap snd)) in H1; vm_compute in H1; simplify_eq;
       by vm_compute in H2].
  assert (rtc step p1 p2) as Hsteps by (apply rtc_once; by eapply step_op).
  pose proof (live_robots_monotonic process0 p1 p2 0 7 out Hwf H7 H1 Hsteps)
    as (_ & Hlive & _).
  assert (out = Return ()) as ->.
  { apply (f_equal (fmap fst)) in H1. vm_compute in H1. by simplify_eq. }
  assert (out2 = Return ()) as ->.
  { apply (f_equal (fmap snd)) in H1. vm_compute in H1. simplify_eq.
    apply (f_equal (fmap fst)) in H2. vm_compute in H2. by simplify_eq. }
  by exists p1, p2.
Defined.

(** ** Unknown pin-command subtypes *)

(** C6. A pin-commands payload (command 0x0F) whose subtype byte is
    neither 0x01 nor 0x02 makes the decoder return normally with the
    state exactly as it was: class-level lists, list objects and the
    dictionaries of the instance. *)
Theorem pin_commands_unknown_subtype_ignored (st : St) (subtype : Z) (rest : list Z) :
  subtype ≠ 0x01 → subtype ≠ 0x02 →
  dispatch 0x0F (subtype :: rest) st = (Return (), st).
Proof.
  intros Hne1 Hne2. rewrite dispatch_pin_commands.
  unfold _handle_sysex_pin_commands. read_payload.
  rewrite bool_decide_eq_false_2 by done. read_payload.
  by rewrite bool_decide_eq_false_2 by done.
Qed.

Lemma pin_commands_unknown_subtype_ignored_witness :
  3 ≠ 0x01 ∧ 3 ≠ 0x02 ∧ dispatch 0x0F [3; 9; 9] st0 = (Return (), st0).
Proof.
  assert (3 ≠ 0x01) as H1 by lia. assert (3 ≠ 0x02) as H2 by lia.
  do 2 (split; [done |]).
  exact (pin_commands_unknown_subtype_ignored st0 3 [9; 9] H1 H2).
Defined.

(** ** Isolation of a ping *)

(** C7. A ping frame [msb, lsb, r] with r in [0, 127], handled on any
    session, returns and changes exactly slot r of [nearest_obstacle]:
    the slots of every other robot id, the three other class-level
    lists, all list objects (per-pin arrays) and the dictionaries of all
    sessions are as before. *)
Theorem ping_isolation (p p' : Process) (s : nat) (msb lsb r : Z)
    (out : outcome unit) :
  wf_registry (class_attrs p) → 0 ≤ r ≤ 127 →
  call s (dispatch 0x03 [msb; lsb; r]) p = Some (out, p') →
  out = Return () ∧
  nearest_obstacle (class_attrs p') =
    <[Z.to_nat r := (msb ≪ 7) + lsb]> (nearest_obstacle (class_attrs p)) ∧
  (∀ r', 0 ≤ r' ≤ 127 → r' ≠ r →
     getitem (nearest_obstacle (class_attrs p')) r' =
     getitem (nearest_obstacle (class_attrs p)) r') ∧
  analog_value (class_attrs p') = analog_value (class_attrs p) ∧
  digital_value (class_attrs p') = digital_value (class_attrs p) ∧
  live_robots (class_attrs p') = live_robots (class_attrs p) ∧
  objects p' = objects p ∧
  sessions p' = sessions p.
Proof.
  intros (Hlen & _) Hr Hcall. unfold call in Hcall.
  destruct (sessions p !! s) as [b|] eqn:Hs; [|done].
  rewrite dispatch_ping, ping_eq in Hcall by done.
  simplify_eq. simpl. repeat split; try done.
  - intros r' Hr' Hne. apply getitem_insert_other; lia.
  - by apply insert_id.
Qed.

Lemma ping_isolation_witness :
  wf_registry (class_attrs process0) ∧ 0 ≤ 5 ≤ 127 ∧
  ∃ p',
    call 0 (dispatch 0x03 [1; 0; 5]) process0 = Some (Return (), p') ∧
    getitem (nearest_obstacle (class_attrs p')) 5 = Return 128 ∧
    getitem (nearest_obstacle (class_attrs p')) 4 = Return (-1) ∧
    sessions p' = sessions process0.
Proof.
  assert (wf_registry (class_attrs process0)) as Hwf by apply wf_initial_registry.
  assert (0 ≤ 5 ≤ 127) as H5 by lia.
  do 2 (split; [done |]).
  destruct (call 0 (dispatch 0x03 [1; 0; 5]) process0) as [[out p']|] eqn:Hcall;
    [| by vm_compute in Hcall].
  destruct (ping_isolation process0 p' 0 1 0 5 out Hwf H5 Hcall)
    as (-> & Hno & Hothers & _ & _ & _ & _ & Hsess).
  exists p'. split; [done |]. split; [by rewrite Hno |].
  split; [by rewrite Hothers |]. done.
Defined.

(** ** Short payloads *)

(** C10. A payload with fewer than three bytes makes the ping and analog
    decoders raise [IndexError]; fewer than two, the digital decoder;
    an empty one, the broadcast decoder.  In each case the state is
    exactly as before the call: every payload read comes before the only
    store. *)
Theorem short_payload_raises (st : St) (data : list Z) :
  ((length data < 3)%nat →
     dispatch 0x03 data st = (Raise IndexError, st) ∧
     dispatch 0x06 data st = (Raise IndexError, st)) ∧
  ((length data < 2)%nat → dispatch 0x07 data st = (Raise IndexError, st)) ∧
  ((length data < 1)%nat → dispatch 0x09 data st = (Raise IndexError, st)).
Proof.
  rewrite dispatch_ping, dispatch_analog, dispatch_digital, dispatch_broadcast.
  unfold _handle_sysex_ping, _handle_sysex_analog, _handle_sysex_digital,
    _handle_sysex_broadcast.
  destruct data as [|x0 [|x1 [|x2 data]]]; simpl length;
    (split; [|split]); intros Hlen; try lia; try split;
    read_payload; by rewrite getitem_beyond by (simpl; lia).
Qed.

Lemma short_payload_raises_witness :
  (length [1; 0] < 3)%nat ∧ (length [1] < 2)%nat ∧ (length (@nil Z) < 1)%nat ∧
  dispatch 0x03 [1; 0] st0 = (Raise IndexError, st0) ∧
  dispatch 0x06 [1; 0] st0 = (Raise IndexError, st0) ∧
  dispatch 0x07 [1] st0 = (Raise IndexError, st0) ∧
  dispatch 0x09 [] st0 = (Raise IndexError, st0).
Proof.
  assert (length [1; 0] < 3)%nat as H3 by (simpl; lia).
  assert (length [1] < 2)%nat as H2 by (simpl; lia).
  assert (length (@nil Z) < 1)%nat as H1 by (simpl; lia).
  do 3 (split; [done |]).
  pose proof (proj1 (short_payload_raises st0 [1; 0]) H3) as [Hp Ha].
  pose proof (proj1 (proj2 (short_payload_raises st0 [1])) H2) as Hd.
  pose proof (proj2 (proj2 (short_payload_raises st0 [])) H1) as Hb.
  done.
Defined.

(** ** Well-formedness is an invariant of the process *)

Lemma wf_board_kinds (h : Heap) (b : Board) :
  wf_board h b ↔
  ∀ kd k l, dict_of kd b !! k = Some l →
            ∃ xs, h !! l = Some xs ∧ length xs = length (pins_of kd b).
Proof.
  split.
  - intros [Ha Hd] [] k l Hl; [by apply (Ha k) | by apply (Hd k)].
  - intros H. split; intros k l Hl; [apply (H KAnalog k) | apply (H KDigital k)]; done.
Qed.

Lemma dict_of_set_dict (kd kd' : kind) (d : gmap Z loc) (b : Board) :
  dict_of kd' (set_dict kd d b) = if decide (kd' = kd) then d else dict_of kd' b.
Proof. by destruct kd, kd'. Qed.

Lemma pins_of_set_dict (kd kd' : kind) (d : gmap Z loc) (b : Board) :
  pins_of kd' (set_dict kd d b) = pins_of kd' b.
Proof. by destruct kd, kd'. Qed.

(** Allocating a fresh array for a key that has none keeps the process
    well formed. *)
Lemma wf_process_alloc (s : nat) (others : gmap nat Board) (r : Registry)
    (h : Heap) (b : Board) (kd : kind) (key : Z) :
  wf_process (mkProcess r h (<[s := b]> others)) →
  dict_of kd b !! key = None →
  wf_process
    (mkProcess r
       (<[fresh (dom h) := repeat_list (-1) (length (pins_of kd b))]> h)
       (<[s := set_dict kd (<[key := fresh (dom h)]> (dict_of kd b)) b]> others)).
Proof.
  intros [Hc Ha Hs] Hnone. simpl in *.
  pose proof (fresh_loc_unused h) as Hfresh.
  set (l := fresh (dom h)) in *.
  set (bnew := set_dict kd (<[key := l]> (dict_of kd b)) b).
  assert (∀ s1 b1 kd1 k1 l0,
    <[s := bnew]> others !! s1 = Some b1 → dict_of kd1 b1 !! k1 = Some l0 →
    (s1 = s ∧ kd1 = kd ∧ k1 = key ∧ l0 = l ∧ b1 = bnew) ∨
    (∃ b1', <[s := b]> others !! s1 = Some b1' ∧ dict_of kd1 b1' !! k1 = Some l0 ∧
            pins_of kd1 b1 = pins_of kd1 b1')) as Hentry.
  { intros s1 b1 kd1 k1 l0 Hb1 Hl0. destruct (decide (s1 = s)) as [->|Hne].
    - rewrite lookup_insert_eq in Hb1. injection Hb1 as <-.
      unfold bnew in Hl0. rewrite dict_of_set_dict in Hl0.
      destruct (decide (kd1 = kd)) as [->|Hkd].
      + destruct (decide (k1 = key)) as [->|Hk].
        * rewrite lookup_insert_eq in Hl0. injection Hl0 as <-. by left.
        * rewrite lookup_insert_ne in Hl0 by done. right. exists b.
          rewrite lookup_insert_eq. unfold bnew. by rewrite pins_of_set_dict.
      + right. exists b. rewrite lookup_insert_eq. unfold bnew.
        by rewrite pins_of_set_dict.
    - rewrite lookup_insert_ne in Hb1 by done. right. exists b1.
      by rewrite lookup_insert_ne. }
  assert (∀ s1 b1 kd1 k1 l0,
    <[s := b]> others !! s1 = Some b1 → dict_of kd1 b1 !! k1 = Some l0 →
    ∃ xs, h !! l0 = Some xs ∧ length xs = length (pins_of kd1 b1)) as Hold.
  { intros s1 b1 kd1 k1 l0 Hb1 Hl0.
    by apply (proj1 (wf_board_kinds h b1) (Ha s1 b1 Hb1) kd1 k1). }
  split; simpl.
  - done.
  - intros s1 b1 Hb1. apply wf_board_kinds. intros kd1 k1 l0 Hl0.
    destruct (Hentry _ _ _ _ _ Hb1 Hl0)
      as [(-> & -> & -> & -> & ->) | (b1' & Hb1' & Hd & Hp)].
    + rewrite lookup_insert_eq. eexists. split; [done |].
      unfold bnew, repeat_list. by rewrite pins_of_set_dict, length_replicate.
    + destruct (Hold _ _ _ _ _ Hb1' Hd) as (xs & Hxs & Hlen).
      exists xs. rewrite lookup_insert_ne by congruence. by rewrite Hp.
  - intros s1 b1 kd1 k1 s2 b2 kd2 k2 l0 Hb1 Hl1 Hb2 Hl2.
    destruct (Hentry _ _ _ _ _ Hb1 Hl1)
      as [(-> & -> & -> & -> & ->) | (b1' & Hb1' & Hd1 & _)];
    destruct (Hentry _ _ _ _ _ Hb2 Hl2)
      as [(-> & -> & -> & ? & ->) | (b2' & Hb2' & Hd2 & _)].
    + done.
    + destruct (Hold _ _ _ _ _ Hb2' Hd2) as (xs & Hxs & _). congruence.
    + destruct (Hold _ _ _ _ _ Hb1' Hd1) as (xs & Hxs & _). congruence.
    + by apply (Hs s1 b1' kd1 k1 s2 b2' kd2 k2 l0).
Qed.

Lemma wf_process_heap_update (r : Registry) (h : Heap) (ss : gmap nat Board)
    (l : loc) (xs xs' : list Z) :
  wf_process (mkProcess r h ss) → h !! l = Some xs → length xs' = length xs →
  wf_process (mkProcess r (<[l := xs']> h) ss).
Proof.
  intros [Hc Ha Hs] Hl Hlen. split; simpl in *; [done | | done].
  intros s b Hb. apply wf_board_kinds. intros kd k l0 Hl0.
  destruct (proj1 (wf_board_kinds h b) (Ha s b Hb) kd k l0 Hl0) as (ys & Hys & Hn).
  destruct (decide (l = l0)) as [->|Hne].
  - rewrite lookup_insert_eq. exists xs'. split; [done |]. congruence.
  - rewrite lookup_insert_ne by done. by exists ys.
Qed.

Lemma wf_process_registry (r r' : Registry) (h : Heap) (ss : gmap nat Board) :
  wf_process (mkProcess r h ss) → wf_registry r' → wf_process (mkProcess r' h ss).
Proof. intros [Hc Ha Hs] Hr. by split. Qed.

Global Instance inv_kept_preorder (s : nat) (others : gmap nat Board) :
  PreOrder (inv_kept s others).
Proof.
  split.
  - by intros st Hwf.
  - intros st1 st2 st3 H12 H23 Hwf. by apply H23, H12.
Qed.

Lemma inv_kept_store_registry (s : nat) (others : gmap nat Board) get set (i v : Z) :
  (∀ xs r, length xs = length (get r) → wf_registry r → wf_registry (set xs r)) →
  preserves (inv_kept s others) (store_registry get set i v).
Proof.
  intros Hset st Hwf. unfold store_registry.
  destruct (setitem _ _ _) as [xs|] eqn:Hxs; [|done]. simpl.
  apply setitem_length in Hxs.
  apply (wf_process_registry (reg st)); [done |].
  apply Hset; [done | apply Hwf].
Qed.

Lemma inv_kept_heap_setitem (s : nat) (others : gmap nat Board) (l : loc) (i v : Z) :
  preserves (inv_kept s others) (heap_setitem l i v).
Proof.
  intros st Hwf. unfold heap_setitem.
  destruct (heap st !! l) as [xs|] eqn:Hl; [|done].
  destruct (setitem _ _ _) as [xs'|] eqn:Hxs; [|done]. simpl.
  apply setitem_length in Hxs. by apply (wf_process_heap_update _ _ _ _ xs).
Qed.

Lemma inv_kept_pin_analog_value (s : nat) (others : gmap nat Board) (robotid : Z) :
  preserves (inv_kept s others) (pin_analog_value robotid).
Proof.
  intros st Hwf.
  destruct (_pin_analog_value (self st) !! robotid) as [l|] eqn:Hl.
  - by rewrite (pin_analog_value_present _ l).
  - rewrite pin_analog_value_absent by done.
    by apply (wf_process_alloc s others (reg st) (heap st) (self st) KAnalog).
Qed.

Lemma inv_kept_pin_digital_value (s : nat) (others : gmap nat Board) (robotid : Z) :
  preserves (inv_kept s others) (pin_digital_value robotid).
Proof.
  intros st Hwf.
  destruct (_pin_digital_value (self st) !! robotid) as [l|] eqn:Hl.
  - by rewrite (pin_digital_value_present _ l).
  - rewrite pin_digital_value_absent by done.
    by apply (wf_process_alloc s others (reg st) (heap st) (self st) KDigital).
Qed.

Lemma inv_kept_perform (s : nat) (others : gmap nat Board) (o : op) :
  preserves (inv_kept s others) (perform o).
Proof.
  assert (∀ i v, preserves (inv_kept s others)
                   (store_registry nearest_obstacle set_nearest_obstacle i v))
    by (intros; apply inv_kept_store_registry; intros xs r Hx (?&?&?&?);
        repeat split; simpl; congruence).
  assert (∀ i v, preserves (inv_kept s others)
                   (store_registry analog_value set_analog_value i v))
    by (intros; apply inv_kept_store_registry; intros xs r Hx (?&?&?&?);
        repeat split; simpl; congruence).
  assert (∀ i v, preserves (inv_kept s others)
                   (store_registry digital_value set_digital_value i v))
    by (intros; apply inv_kept_store_registry; intros xs r Hx (?&?&?&?);
        repeat split; simpl; congruence).
  assert (∀ i v, preserves (inv_kept s others)
                   (store_registry live_robots set_live_robots i v))
    by (intros; apply inv_kept_store_registry; intros xs r Hx (?&?&?&?);
        repeat split; simpl; congruence).
  pose proof (inv_kept_heap_setitem s others).
  pose proof (inv_kept_pin_analog_value s others).
  pose proof (inv_kept_pin_digital_value s others).
  destruct o as [cmd data| |]; simpl.
  - apply dispatch_cases; preserves_steps.
  - preserves_steps.
  - preserves_steps.
Qed.

Lemma wf_initial_process : wf_process initial_process.
Proof.
  split; simpl.
  - apply wf_initial_registry.
  - intros s b Hb. by rewrite lookup_empty in Hb.
  - intros s1 b1 ? ? ? ? ? ? ? Hb. by rewrite lookup_empty in Hb.
Qed.

Lemma step_wf_process (p p' : Process) : step p p' → wf_process p → wf_process p'.
Proof.
  intros [p0 s a d Hs | p0 s o out p1 Hcall] [Hc Ha Hsep].
  - assert (∀ s1 b1, <[s := new_board a d]> (sessions p0) !! s1 = Some b1 →
              (∃ kd k l, dict_of kd b1 !! k = Some l) → sessions p0 !! s1 = Some b1)
      as Hold.
    { intros s1 b1 Hb1 (kd & k & l & Hl). destruct (decide (s1 = s)) as [->|Hne].
      - rewrite lookup_insert_eq in Hb1. injection Hb1 as <-.
        destruct kd; simpl in Hl; by rewrite lookup_empty in Hl.
      - by rewrite lookup_insert_ne in Hb1. }
    split; simpl.
    + done.
    + intros s1 b1 Hb1. apply wf_board_kinds. intros kd k l Hl.
      by apply (proj1 (wf_board_kinds _ _) (Ha s1 b1 (Hold s1 b1 Hb1 ltac:(eauto))) kd k).
    + intros s1 b1 kd1 k1 s2 b2 kd2 k2 l Hb1 Hl1 Hb2 Hl2.
      apply (Hsep s1 b1 kd1 k1 s2 b2 kd2 k2 l); eauto.
  - unfold call in Hcall. destruct (sessions p0 !! s) as [b|] eqn:Hs; [|done].
    pose proof (inv_kept_perform s (sessions p0) o
                  (mkSt (class_attrs p0) (objects p0) b)) as Hkept.
    destruct (perform o _) as [out' st']. simplify_eq. apply Hkept.
    unfold assemble. simpl. rewrite insert_id by done. by split.
Qed.

Lemma reachable_wf_process (p : Process) : reachable p → wf_process p.
Proof.
  unfold reachable. intros Hsteps.
  assert (∀ p0 p1, rtc step p0 p1 → wf_process p0 → wf_process p1) as Hall.
  { induction 1 as [|p1 p2 p3 Hstep _ IH]; [done |].
    intros Hwf. by apply IH, (step_wf_process p1 p2). }
  apply (Hall initial_process p Hsteps), wf_initial_process.
Qed.

(** ** List objects of other sessions are left alone *)

Global Instance frame_kept_preorder : PreOrder frame_kept.
Proof.
  split.
  - intros st. by repeat split.
  - intros st1 st2 st3 (Hal1 & Hfr1 & Hd1 & Ha1 & Hg1) (Hal2 & Hfr2 & Hd2 & Ha2 & Hg2).
    split; [by eauto |]. split; [|split; [by etrans | split; congruence]].
    intros l Hl Hnot. rewrite Hfr2, Hfr1; eauto.
    intros kd k Hk. apply (Hnot kd k).
    destruct Hd2 as [Hd2a Hd2d]. destruct kd; simpl in *; eauto.
Qed.

Lemma frame_kept_same (st st' : St) :
  heap st' = heap st → self st' = self st → frame_kept st st'.
Proof.
  intros Hh Hs. unfold frame_kept. rewrite Hh, Hs.
  split; [done |]. split; [done |]. split; [|done].
  by apply dicts_kept_same_self.
Qed.

Lemma frame_kept_store_registry get set (i v : Z) :
  preserves frame_kept (store_registry get set i v).
Proof. intros st. apply frame_kept_same; apply store_registry_self. Qed.

(** The accessor returns, leaves existing objects alone, and its result
    is kept under the robot id afterwards. *)
Lemma pin_analog_value_frame (robotid : Z) (st : St) :
  ∃ arr st1, pin_analog_value robotid st = (Return arr, st1) ∧
             frame_kept st st1 ∧
             dict_of KAnalog (self st1) !! robotid = Some arr.
Proof.
  destruct (_pin_analog_value (self st) !! robotid) as [l|] eqn:Hl.
  - exists l, st. rewrite (pin_analog_value_present _ l) by done.
    by repeat split.
  - eexists _, _. split; [by apply pin_analog_value_absent |].
    pose proof (fresh_loc_unused (heap st)) as Hfresh.
    split; [|simpl; apply lookup_insert_eq].
    split; [|split; [|split; [|done]]]; simpl.
    + intros l [xs Hxs]. exists xs. rewrite lookup_insert_ne; [done | congruence].
    + intros l [xs Hxs] _. rewrite lookup_insert_ne; [done | congruence].
    + split; simpl; [|done]. intros k l Hk.
      rewrite lookup_insert_ne; [done | congruence].
Qed.

Lemma pin_digital_value_frame (robotid : Z) (st : St) :
  ∃ arr st1, pin_digital_value robotid st = (Return arr, st1) ∧
             frame_kept st st1 ∧
             dict_of KDigital (self st1) !! robotid = Some arr.
Proof.
  destruct (_pin_digital_value (self st) !! robotid) as [l|] eqn:Hl.
  - exists l, st. rewrite (pin_digital_value_present _ l) by done.
    by repeat split.
  - eexists _, _. split; [by apply pin_digital_value_absent |].
    pose proof (fresh_loc_unused (heap st)) as Hfresh.
    split; [|simpl; apply lookup_insert_eq].
    split; [|split; [|split; [|done]]]; simpl.
    + intros l [xs Hxs]. exists xs. rewrite lookup_insert_ne; [done | congruence].
    + intros l [xs Hxs] _. rewrite lookup_insert_ne; [done | congruence].
    + split; simpl; [done |]. intros k l Hk.
      rewrite lookup_insert_ne; [done | congruence].
Qed.

(** A store into a list object that the instance keeps. *)
Lemma frame_kept_heap_setitem_owned (kd : kind) (k : Z) (l : loc) (i v : Z) (st : St) :
  dict_of kd (self st) !! k = Some l →
  frame_kept st (snd (heap_setitem l i v st)).
Proof.
  intros Hown. unfold heap_setitem.
  destruct (heap st !! l) as [xs|] eqn:Hl; [|reflexivity].
  destruct (setitem _ _ _) as [xs'|]; [|reflexivity]. simpl.
  split; [|split; [|split; [|done]]]; simpl.
  - intros l0 [ys Hys]. destruct (decide (l = l0)) as [->|Hne].
    + rewrite lookup_insert_eq. by eexists.
    + rewrite lookup_insert_ne by done. by eexists.
  - intros l0 _ Hnot. rewrite lookup_insert_ne; [done |].
    intros ->. by apply (Hnot kd k).
  - by apply dicts_kept_same_self.
Qed.

Lemma frame_kept_store_analog (robot pin v : Z) :
  preserves frame_kept (arr <- pin_analog_value robot ;; heap_setitem arr pin v).
Proof.
  intros st. unfold bind.
  destruct (pin_analog_value_frame robot st) as (arr & st1 & -> & Hfr & Hown).
  etrans; [exact Hfr |]. by apply (frame_kept_heap_setitem_owned KAnalog robot).
Qed.

Lemma frame_kept_store_digital (robot pin v : Z) :
  preserves frame_kept (arr <- pin_digital_value robot ;; heap_setitem arr pin v).
Proof.
  intros st. unfold bind.
  destruct (pin_digital_value_frame robot st) as (arr & st1 & -> & Hfr & Hown).
  etrans; [exact Hfr |]. by apply (frame_kept_heap_setitem_owned KDigital robot).
Qed.

Lemma frame_kept_perform (o : op) : preserves frame_kept (perform o).
Proof.
  pose proof frame_kept_store_registry.
  pose proof frame_kept_store_analog. pose proof frame_kept_store_digital.
  assert (∀ r, preserves frame_kept (pin_analog_value r)).
  { intros r st. by destruct (pin_analog_value_frame r st) as (? & ? & -> & ? & _). }
  assert (∀ r, preserves frame_kept (pin_digital_value r)).
  { intros r st. by destruct (pin_digital_value_frame r st) as (? & ? & -> & ? & _). }
  destruct o as [cmd data| |]; simpl.
  - apply dispatch_cases; preserves_steps.
  - preserves_steps.
  - preserves_steps.
Qed.

(** ** What one session writes and another reads *)

Lemma read_pin_analog_fst (robot pin : Z) (st : St) :
  fst (read_pin_analog robot pin st) =
    match _pin_analog_value (self st) !! robot with
    | Some l => heap_getitem (heap st) l pin
    | None => getitem (repeat_list (-1) (length (analog (self st)))) pin
    end.
Proof.
  unfold read_pin_analog, bind.
  destruct (_pin_analog_value (self st) !! robot) as [l|] eqn:Hl.
  - by rewrite (pin_analog_value_present _ l).
  - rewrite pin_analog_value_absent by done. simpl.
    unfold heap_getitem. by rewrite lookup_insert_eq.
Qed.

Lemma read_pin_digital_fst (robot pin : Z) (st : St) :
  fst (read_pin_digital robot pin st) =
    match _pin_digital_value (self st) !! robot with
    | Some l => heap_getitem (heap st) l pin
    | None => getitem (repeat_list (-1) (length (digital (self st)))) pin
    end.
Proof.
  unfold read_pin_digital, bind.
  destruct (_pin_digital_value (self st) !! robot) as [l|] eqn:Hl.
  - by rewrite (pin_digital_value_present _ l).
  - rewrite pin_digital_value_absent by done. simpl.
    unfold heap_getitem. by rewrite lookup_insert_eq.
Qed.

Lemma observe_eq {A} (s : nat) (m : M A) (p : Process) (b : Board) :
  sessions p !! s = Some b →
  observe s m p = Some (fst (m (mkSt (class_attrs p) (objects p) b))).
Proof.
  intros Hb. unfold observe, call. rewrite Hb.
  by destruct (m _) as [o st].
Qed.

(** An operation on one session leaves alone every list object kept by
    another session. *)
Lemma other_session_objects (p p' : Process) (s1 s2 : nat) (o : op)
    (out : outcome unit) (b2 : Board) (kd : kind) (k : Z) (l : loc) :
  wf_process p → s1 ≠ s2 →
  call s1 (perform o) p = Some (out, p') →
  sessions p !! s2 = Some b2 → dict_of kd b2 !! k = Some l →
  sessions p' !! s2 = Some b2 ∧ objects p' !! l = objects p !! l.
Proof.
  intros Hwf Hne Hcall Hb2 Hl.
  assert (wf_process p') as Hwf' by (by apply (step_wf_process p p'); [eapply step_op |]).
  unfold call in Hcall. destruct (sessions p !! s1) as [b1|] eqn:Hb1; [|done].
  pose proof (frame_kept_perform o (mkSt (class_attrs p) (objects p) b1))
    as (_ & Hframe & _).
  destruct (perform o _) as [out' st']. simplify_eq. simpl in *.
  assert (<[s1 := self st']> (sessions p) !! s2 = Some b2) as Hb2'
    by (by rewrite lookup_insert_ne).
  split; [done |]. apply Hframe.
  - destruct (proj1 (wf_board_kinds _ _) (wf_alloc p Hwf s2 b2 Hb2) kd k l Hl)
      as (xs & -> & _). by eexists.
  - intros kd1 k1 Hown.
    destruct (wf_sep _ Hwf' s1 (self st') kd1 k1 s2 b2 kd k l) as (? & _); try done.
    simpl. apply lookup_insert_eq.
Qed.

Lemma digital_eq (st : St) (value robot : Z) :
  length (digital_value (reg st)) = 128%nat → 0 ≤ robot ≤ 127 →
  _handle_sysex_digital [value; robot] st =
    (Return (),
     mkSt (set_digital_value (<[Z.to_nat robot := value]> (digital_value (reg st))) (reg st))
          (heap st) (self st)).
Proof.
  intros Hlen Hr. unfold _handle_sysex_digital. read_payload.
  apply store_registry_in_range. lia.
Qed.

(** A store into the class attributes made on one session is what a
    read on any session then sees. *)
Lemma class_store_observed (p : Process) (s1 s2 : nat) (m : M unit) (rd : M Z)
    (r' : Registry) (v : Z) :
  is_Some (sessions p !! s1) → is_Some (sessions p !! s2) →
  (∀ b, m (mkSt (class_attrs p) (objects p) b) = (Return (), mkSt r' (objects p) b)) →
  (∀ h b, fst (rd (mkSt r' h b)) = Return v) →
  ∃ p', call s1 m p = Some (Return (), p') ∧ observe s2 rd p' = Some (Return v).
Proof.
  intros [b1 Hb1] [b2 Hb2] Hm Hrd. unfold call at 1. rewrite Hb1, Hm.
  eexists. split; [done |].
  destruct (decide (s1 = s2)) as [->|Hne].
  - rewrite (observe_eq _ _ _ b1) by apply lookup_insert_eq. by rewrite Hrd.
  - rewrite (observe_eq _ _ _ b2) by (by simpl; rewrite lookup_insert_ne).
    by rewrite Hrd.
Qed.

(** Decoders run as methods of board [s1], seen from board [s2]: a
    store into the class lists is what a read through [s2] then sees,
    and when [s2] is another board none of its per-pin reads changes. *)
Lemma method_call_across_boards (p : Process) (s1 s2 : nat)
    (msb lsb value robot : Z) :
  wf_process p → is_Some (sessions p !! s1) → is_Some (sessions p !! s2) →
  0 ≤ robot ≤ 127 →
  (∃ p', call s1 (dispatch 0x03 [msb; lsb; robot]) p = Some (Return (), p') ∧
         observe s2 (read_nearest_obstacle robot) p' = Some (Return ((msb ≪ 7) + lsb))) ∧
  (∃ p', call s1 (dispatch 0x06 [msb; lsb; robot]) p = Some (Return (), p') ∧
         observe s2 (read_analog_value robot) p' = Some (Return ((msb ≪ 7) + lsb))) ∧
  (∃ p', call s1 (dispatch 0x07 [value; robot]) p = Some (Return (), p') ∧
         observe s2 (read_digital_value robot) p' = Some (Return value)) ∧
  (∃ p', call s1 (dispatch 0x09 [robot]) p = Some (Return (), p') ∧
         observe s2 (read_live_robots robot) p' = Some (Return 1)) ∧
  (s1 ≠ s2 → ∀ o out p' r pin,
     call s1 (perform o) p = Some (out, p') →
     observe s2 (read_pin_analog r pin) p' = observe s2 (read_pin_analog r pin) p ∧
     observe s2 (read_pin_digital r pin) p' = observe s2 (read_pin_digital r pin) p).
Proof.
  intros Hwf Hs1 Hs2 Hr.
  destruct (wf_class p Hwf) as (Hno & Han & Hdg & Hlv).
  split; [|split; [|split; [|split]]].
  - rewrite dispatch_ping.
    apply (class_store_observed p s1 s2 _ _
             (set_nearest_obstacle
                (<[Z.to_nat robot := (msb ≪ 7) + lsb]> (nearest_obstacle (class_attrs p)))
                (class_attrs p))); [done | done | |].
    + intros b. by rewrite ping_eq.
    + intros h b. simpl. apply getitem_insert_same. lia.
  - rewrite dispatch_analog.
    apply (class_store_observed p s1 s2 _ _
             (set_analog_value
                (<[Z.to_nat robot := (msb ≪ 7) + lsb]> (analog_value (class_attrs p)))
                (class_attrs p))); [done | done | |].
    + intros b. by rewrite analog_eq.
    + intros h b. simpl. apply getitem_insert_same. lia.
  - rewrite dispatch_digital.
    apply (class_store_observed p s1 s2 _ _
             (set_digital_value
                (<[Z.to_nat robot := value]> (digital_value (class_attrs p)))
                (class_attrs p))); [done | done | |].
    + intros b. by rewrite digital_eq.
    + intros h b. simpl. apply getitem_insert_same. lia.
  - rewrite dispatch_broadcast.
    apply (class_store_observed p s1 s2 _ _
             (set_live_robots
                (<[Z.to_nat robot := 1]> (live_robots (class_attrs p)))
                (class_attrs p))); [done | done | |].
    + intros b. by rewrite broadcast_eq.
    + intros h b. simpl. apply getitem_insert_same. lia.
  - intros Hne o out p' r pin Hcall. destruct Hs2 as [b2 Hb2].
    assert (sessions p' !! s2 = Some b2) as Hb2'.
    { unfold call in Hcall. destruct (sessions p !! s1); [|done].
      destruct (perform o _). simplify_eq. simpl. by rewrite lookup_insert_ne. }
    rewrite !(observe_eq _ _ p' b2), !(observe_eq _ _ p b2) by done.
    rewrite !read_pin_analog_fst, !read_pin_digital_fst. simpl.
    split; f_equal.
    + destruct (_pin_analog_value b2 !! r) as [l|] eqn:Hl; [|done].
      unfold heap_getitem.
      by destruct (other_session_objects p p' s1 s2 o out b2 KAnalog r l) as [_ ->].
    + destruct (_pin_digital_value b2 !! r) as [l|] eqn:Hl; [|done].
      unfold heap_getitem.
      by destruct (other_session_objects p p' s1 s2 o out b2 KDigital r l) as [_ ->].
Qed.

Lemma wf_process0 : wf_process process0.
Proof.
  assert (∀ s b kd k l, sessions process0 !! s = Some b → dict_of kd b !! k ≠ Some l)
    as Hempty.
  { intros s b kd k l Hb Hl. unfold process0 in Hb. simpl in Hb.
    destruct (decide (s = 0%nat)) as [->|];
      [rewrite lookup_insert_eq in Hb | rewrite lookup_insert_ne in Hb by done;
       apply lookup_singleton_Some in Hb as [_ Hb]];
      simplify_eq; destruct kd; simpl in Hl; by rewrite lookup_empty in Hl. }
  split.
  - apply wf_initial_registry.
  - intros s b Hb. apply wf_board_kinds. intros kd k l Hl. by destruct (Hempty s b kd k l).
  - intros s1 b1 kd1 k1 s2 b2 kd2 k2 l Hb1 Hl1. by destruct (Hempty s1 b1 kd1 k1 l).
Qed.

(** ** Frames through the shared handler table *)

Lemma setup_layout_lookup (s : nat) (table : gmap Z (nat * (list Z → M unit))) (cmd : Z) :
  setup_layout s table !! cmd =
    match command_handlers !! cmd with
    | Some handler => Some (s, handler)
    | None => table !! cmd
    end.
Proof.
  unfold setup_layout, add_cmd_handler, command_handlers.
  repeat (rewrite (lookup_insert (M := gmap Z)); symmetry;
          rewrite (lookup_insert (M := gmap Z)); symmetry;
          case_decide; [done |]).
  by rewrite lookup_empty.
Qed.

Lemma bound_to_setup_layout (s : nat) (table : gmap Z (nat * (list Z → M unit))) :
  table = ∅ ∨ (∃ owner, bound_to owner table) → bound_to s (setup_layout s table).
Proof.
  intros Htable cmd. rewrite setup_layout_lookup.
  destruct (command_handlers !! cmd) as [handler|] eqn:Hcmd; [done |]. simpl.
  destruct Htable as [-> | [owner Hb]]; [apply lookup_empty |].
  by rewrite Hb, Hcmd.
Qed.

Lemma bound_to_lookup (owner : nat) (table : gmap Z (nat * (list Z → M unit)))
    (cmd : Z) (o : nat) (handler : list Z → M unit) :
  bound_to owner table → table !! cmd = Some (o, handler) →
  o = owner ∧ ∀ data, dispatch cmd data = handler data.
Proof.
  intros Hb Hcmd. rewrite Hb in Hcmd. unfold dispatch.
  destruct (command_handlers !! cmd) as [h|]; [|done].
  by injection Hcmd as <- <-.
Qed.

Lemma call_session_kept {A} (s s' : nat) (m : M A) (p p' : Process) (out : outcome A) :
  call s m p = Some (out, p') → is_Some (sessions p !! s') → is_Some (sessions p' !! s').
Proof.
  unfold call. destruct (sessions p !! s) as [b|] eqn:Hb; [|done].
  destruct (m _) as [o st]. intros [= <- <-] Hs'. simpl.
  destruct (decide (s = s')) as [->|Hne].
  - rewrite lookup_insert_eq. by eexists.
  - by rewrite lookup_insert_ne.
Qed.

Lemma call_no_session_lost {A} (s : nat) (m : M A) (p p' : Process) (out : outcome A) :
  call s m p = Some (out, p') → sessions p' ≠ ∅.
Proof.
  unfold call. destruct (sessions p !! s) as [b|]; [|done].
  destruct (m _) as [o st]. intros [= <- <-]. simpl. apply insert_non_empty.
Qed.

(** With the decoders bound to [owner], a frame arriving on any board
    is a call of the decoder as a method of [owner]. *)
Lemma receive_bound (e : Engine) (owner r : nat) (cmd : Z) (data : list Z) :
  bound_to owner (_command_handlers e) → is_Some (sessions (process e) !! r) →
  receive r cmd data e =
    match command_handlers !! cmd with
    | None => Some (Return (), e)
    | Some _ =>
        match call owner (dispatch cmd data) (process e) with
        | Some (out, p') => Some (out, mkEngine p' (_command_handlers e))
        | None => None
        end
    end.
Proof.
  intros Hb [b Hr]. unfold receive, dispatch. rewrite Hr, Hb.
  by destruct (command_handlers !! cmd).
Qed.

(** An accessor call by a user of board [s] is a step of the process. *)
Lemma call_accessor_step (p p' : Process) (s : nat) (kd : kind) (robotid : Z)
    (out : outcome loc) :
  call s (accessor kd robotid) p = Some (out, p') → step p p'.
Proof.
  intros Hcall. unfold call in Hcall.
  destruct (sessions p !! s) as [b|] eqn:Hb; [|done]. destruct kd; simpl in Hcall.
  - destruct (pin_analog_value_frame robotid (mkSt (class_attrs p) (objects p) b))
      as (arr & st1 & Heq & _).
    rewrite Heq in Hcall. injection Hcall as <- <-.
    apply (step_op p s (PinAnalogValue robotid) (Return ())).
    unfold call, perform, bind. by rewrite Hb, Heq.
  - destruct (pin_digital_value_frame robotid (mkSt (class_attrs p) (objects p) b))
      as (arr & st1 & Heq & _).
    rewrite Heq in Hcall. injection Hcall as <- <-.
    apply (step_op p s (PinDigitalValue robotid) (Return ())).
    unfold call, perform, bind. by rewrite Hb, Heq.
Qed.

Lemma engine_step_inv (e e' : Engine) : engine_inv e → engine_step e e' → engine_inv e'.
Proof.
  intros [Hreach Htable] Hstep.
  destruct Hstep as [e s a d Hs | e r cmd data out e' Hrecv | e s kd robotid out p' Hcall].
  - split; simpl.
    + eapply rtc_r; [exact Hreach |]. by apply step_new.
    + right. exists s. split; [rewrite lookup_insert_eq; by eexists |].
      apply bound_to_setup_layout. destruct Htable as [[_ ->] | [o [_ Hb]]]; eauto.
  - unfold receive in Hrecv.
    destruct (sessions (process e) !! r) as [br|] eqn:Hr; [|done].
    destruct (_command_handlers e !! cmd) as [[o handler]|] eqn:Hcmd.
    + destruct (call o (handler data) (process e)) as [[out' p']|] eqn:Hcall; [|done].
      injection Hrecv as <- <-.
      destruct Htable as [[Hempty _] | (owner & Hown & Hb)];
        [by rewrite Hempty, lookup_empty in Hr |].
      destruct (bound_to_lookup _ _ _ _ _ Hb Hcmd) as [-> Hdisp].
      split; simpl.
      * eapply rtc_r; [exact Hreach |].
        apply (step_op _ owner (Frame cmd data) out'). simpl. by rewrite Hdisp.
      * right. exists owner. split; [|done]. by apply (call_session_kept _ _ _ _ _ _ Hcall).
    + injection Hrecv as <- <-. by split.
  - split; simpl.
    + eapply rtc_r; [exact Hreach |]. by apply (call_accessor_step _ _ s kd robotid out).
    + destruct Htable as [[Hempty _] | (owner & Hown & Hb)].
      * unfold call in Hcall. by rewrite Hempty, lookup_empty in Hcall.
      * right. exists owner. split; [|done]. by apply (call_session_kept _ _ _ _ _ _ Hcall).
Qed.

Lemma engine_reachable_inv (e : Engine) : engine_reachable e → engine_inv e.
Proof.
  unfold engine_reachable. intros Hsteps.
  assert (∀ e0 e1, rtc engine_step e0 e1 → engine_inv e0 → engine_inv e1) as Hall.
  { induction 1 as [|e1 e2 e3 Hstep _ IH]; [done |].
    intros Hinv. by apply IH, (engine_step_inv e1 e2). }
  apply (Hall initial_engine e Hsteps). split; [apply rtc_refl | by left].
Qed.

Lemma engine_reachable_engine2 : engine_reachable engine2.
Proof.
  unfold engine_reachable, engine2.
  eapply rtc_l; [by apply engine_construct |].
  apply rtc_once. by apply engine_construct.
Qed.

Lemma after_receive_reachable (r : nat) (cmd : Z) (data : list Z) (e : Engine) :
  engine_reachable e → engine_reachable (after_receive r cmd data e).
Proof.
  intros Hreach. unfold after_receive.
  destruct (receive r cmd data e) as [[out e']|] eqn:Hrecv; [|done].
  eapply rtc_r; [exact Hreach |]. by apply (engine_receive e r cmd data out).
Qed.

Lemma engine_reachable_engine3 : engine_reachable engine3.
Proof.
  unfold engine3. apply after_receive_reachable.
  eapply rtc_r; [| by apply engine_construct].
  do 2 apply after_receive_reachable.
  apply rtc_once. by apply engine_construct.
Qed.




(** ** Initialisation of a TCP session *)

Lemma generic_initialization_calls (layout : py_layout) (pending : nat) :
  (AutoSetup ∈ _generic_initialization layout pending ↔ truthy layout = false) ∧
  (SetupLayout layout ∈ _generic_initialization layout pending ↔ truthy layout = true).
Proof.
  unfold _generic_initialization.
  destruct (truthy layout); rewrite !elem_of_cons, !elem_of_replicate;
    intuition (discriminate || reflexivity || auto).
Qed.

(** C9, as amended. The layout argument of the TCP session has no
    default, but it decides the path: once the connection is made, the
    session applies the layout with [setup_layout] when the layout is
    truthy, and calls [auto_setup] exactly when it is falsy ([None] or an
    empty dictionary); for a non-empty layout dictionary auto-discovery
    is never triggered.  When the connection fails nothing is
    initialised at all. *)
Theorem tcp_layout_decides_auto_setup (pending : nat) (robot_ip : string) (port : Z)
    (layout : py_layout) (name : option string) (debug : bool) :
  (∃ nm calls,
     FirmataTCPBoard_init true pending robot_ip port layout name debug =
       Constructed nm layout calls ∧
     (AutoSetup ∈ calls ↔ truthy layout = false) ∧
     (SetupLayout layout ∈ calls ↔ truthy layout = true) ∧
     (AutoSetup ∈ calls ↔ layout = LayoutNone ∨ layout = LayoutDict ∅) ∧
     (∀ d, layout = LayoutDict d → d ≠ ∅ → AutoSetup ∉ calls)) ∧
  FirmataTCPBoard_init false pending robot_ip port layout name debug =
    (if debug then Reraised else Exited 1).
Proof.
  split; [|done].
  eexists _, _. split; [reflexivity |].
  destruct (generic_initialization_calls layout pending) as [Hauto Hsetup].
  assert (truthy layout = false ↔ layout = LayoutNone ∨ layout = LayoutDict ∅) as Hfalsy.
  { destruct layout as [|d]; simpl; [by intuition |].
    case_bool_decide as Hd; simpl; [subst d; by intuition |].
    split; [done |]. intros [? | [= ?]]; done. }
  split; [done |]. split; [done |]. split; [by rewrite Hauto |].
  intros d -> Hd. rewrite Hauto, Hfalsy. intros [? | [= ?]]; done.
Qed.

Lemma tcp_layout_decides_auto_setup_witness :
  ∃ nm calls,
    FirmataTCPBoard_init true 2 "192.168.4.1" 1234 (LayoutDict duinobot_layout) None false =
      Constructed nm (LayoutDict duinobot_layout) calls ∧
    AutoSetup ∉ calls.
Proof.
  destruct (tcp_layout_decides_auto_setup 2 "192.168.4.1" 1234
              (LayoutDict duinobot_layout) None false)
    as [(nm & calls & Hinit & _ & _ & _ & Hnon) _].
  exists nm, calls. split; [exact Hinit |].
  apply (Hnon duinobot_layout); [reflexivity | by vm_compute].
Defined.

(** C9, as stated, fails: a TCP session constructed with [None] for the
    layout (or with an empty dictionary) does call [auto_setup]. *)
Lemma tcp_falsy_layout_triggers_auto_setup :
  FirmataTCPBoard_init true 0 "192.168.4.1" 1234 LayoutNone None false =
    Constructed (HostPort "192.168.4.1" 1234) LayoutNone [AutoSetup] ∧
  FirmataTCPBoard_init true 0 "192.168.4.1" 1234 (LayoutDict ∅) None false =
    Constructed (HostPort "192.168.4.1" 1234) (LayoutDict ∅) [AutoSetup].
Proof. split; reflexivity. Qed.

(** * Further properties of the decoders *)

(** ** Payload shape *)

(** X1. No decoder looks at the length of its payload: bytes after the
    ones it reads are ignored, so a payload with trailing bytes acts
    exactly like the payload cut to the expected length (3 bytes for ping
    and analog, 2 for digital, 1 for broadcast, 5 and 4 for the two pin
    commands). *)
Theorem decoders_ignore_trailing_bytes (st : St) (b0 b1 b2 b3 : Z) (rest : list Z) :
  _handle_sysex_ping (b0 :: b1 :: b2 :: rest) st = _handle_sysex_ping [b0; b1; b2] st ∧
  _handle_sysex_analog (b0 :: b1 :: b2 :: rest) st = _handle_sysex_analog [b0; b1; b2] st ∧
  _handle_sysex_digital (b0 :: b1 :: rest) st = _handle_sysex_digital [b0; b1] st ∧
  _handle_sysex_broadcast (b0 :: rest) st = _handle_sysex_broadcast [b0] st ∧
  _handle_sysex_pin_commands (0x01 :: b0 :: b1 :: b2 :: b3 :: rest) st =
    _handle_sysex_pin_commands [0x01; b0; b1; b2; b3] st ∧
  _handle_sysex_pin_commands (0x02 :: b0 :: b1 :: b2 :: rest) st =
    _handle_sysex_pin_commands [0x02; b0; b1; b2] st.
Proof.
  unfold _handle_sysex_ping, _handle_sysex_analog, _handle_sysex_digital,
    _handle_sysex_broadcast, _handle_sysex_pin_commands.
  repeat split; by read_payload.
Qed.

(** ** Robot ids outside the 128 slots *)

Lemma index_negative (len : nat) (i : Z) :
  - Z.of_nat len ≤ i < 0 → index len i = Some (Z.to_nat (Z.of_nat len + i)).
Proof.
  intros Hi. unfold index.
  rewrite bool_decide_eq_false_2 by lia. by rewrite bool_decide_eq_true_2.
Qed.

Lemma index_below (len : nat) (i : Z) : i < - Z.of_nat len → index len i = None.
Proof. intros Hi. unfold index. by rewrite !bool_decide_eq_false_2 by lia. Qed.

Lemma index_lt (len : nat) (i : Z) (n : nat) : index len i = Some n → (n < len)%nat.
Proof. unfold index. repeat case_bool_decide; intros; simplify_eq; lia. Qed.

Lemma store_registry_outside get set (i v : Z) (st : St) :
  Z.of_nat (length (get (reg st))) ≤ i ∨ i < - Z.of_nat (length (get (reg st))) →
  store_registry get set i v st = (Raise IndexError, st).
Proof.
  intros Hi. unfold store_registry, setitem.
  destruct Hi; [by rewrite index_beyond | by rewrite index_below].
Qed.

Lemma store_registry_negative get set (i v : Z) (st : St) :
  - Z.of_nat (length (get (reg st))) ≤ i < 0 →
  store_registry get set i v st =
    store_registry get set (Z.of_nat (length (get (reg st))) + i) v st.
Proof.
  intros Hi. unfold store_registry, setitem.
  rewrite index_negative, index_nonneg by lia. done.
Qed.

(** X2. The robot id is used unchecked as a Python index into the
    128-slot class lists: an id of 128 or more, or below -128, makes each
    of the four scalar decoders raise [IndexError] with the state
    untouched, and a negative id in [-128, -1] is taken from the end of
    the list, so it acts exactly like the id [128 + robot]. *)
Theorem scalar_decoders_robot_index (st : St) (b0 b1 robot : Z) :
  wf_registry (reg st) →
  ((128 ≤ robot ∨ robot < -128) →
     _handle_sysex_ping [b0; b1; robot] st = (Raise IndexError, st) ∧
     _handle_sysex_analog [b0; b1; robot] st = (Raise IndexError, st) ∧
     _handle_sysex_digital [b0; robot] st = (Raise IndexError, st) ∧
     _handle_sysex_broadcast [robot] st = (Raise IndexError, st)) ∧
  (-128 ≤ robot < 0 →
     _handle_sysex_ping [b0; b1; robot] st = _handle_sysex_ping [b0; b1; 128 + robot] st ∧
     _handle_sysex_analog [b0; b1; robot] st =
       _handle_sysex_analog [b0; b1; 128 + robot] st ∧
     _handle_sysex_digital [b0; robot] st = _handle_sysex_digital [b0; 128 + robot] st ∧
     _handle_sysex_broadcast [robot] st = _handle_sysex_broadcast [128 + robot] st).
Proof.
  intros (Hno & Han & Hdg & Hlv).
  unfold _handle_sysex_ping, _handle_sysex_analog, _handle_sysex_digital,
    _handle_sysex_broadcast.
  split; intros Hr; repeat split; read_payload.
  - apply store_registry_outside. rewrite Hno. lia.
  - apply store_registry_outside. rewrite Han. lia.
  - apply store_registry_outside. rewrite Hdg. lia.
  - apply store_registry_outside. rewrite Hlv. lia.
  - rewrite store_registry_negative by (rewrite Hno; lia). by rewrite Hno.
  - rewrite store_registry_negative by (rewrite Han; lia). by rewrite Han.
  - rewrite store_registry_negative by (rewrite Hdg; lia). by rewrite Hdg.
  - rewrite store_registry_negative by (rewrite Hlv; lia). by rewrite Hlv.
Qed.

Lemma scalar_decoders_robot_index_witness :
  wf_registry (reg st0) ∧ (128 ≤ 200 ∨ 200 < -128) ∧ -128 ≤ -1 < 0 ∧
  _handle_sysex_ping [1; 0; 200] st0 = (Raise IndexError, st0) ∧
  _handle_sysex_broadcast [-1] st0 = _handle_sysex_broadcast [128 + -1] st0.
Proof.
  assert (wf_registry (reg st0)) as Hwf by apply wf_initial_registry.
  assert (128 ≤ 200 ∨ 200 < -128) as Hbig by (left; lia).
  assert (-128 ≤ -1 < 0) as Hneg by lia.
  do 3 (split; [done |]). split.
  - exact (proj1 (proj1 (scalar_decoders_robot_index st0 1 0 200 Hwf) Hbig)).
  - exact (proj2 (proj2 (proj2
             (proj2 (scalar_decoders_robot_index st0 1 0 (-1) Hwf) Hneg)))).
Defined.

(** ** What a scalar decoder can change *)

Lemma store_registry_effect get set (i v : Z) (st : St) :
  store_registry get set i v st = (Raise IndexError, st) ∨
  ∃ n, (n < length (get (reg st)))%nat ∧
       store_registry get set i v st =
         (Return (), mkSt (set (<[n := v]> (get (reg st))) (reg st)) (heap st) (self st)).
Proof.
  unfold store_registry, setitem.
  destruct (index _ _) as [n|] eqn:Hn; [right | by left].
  exists n. split; [by apply index_lt in Hn | done].
Qed.

Lemma bind_lift_effect {A} (o : outcome A) (k : A → M unit) (st : St)
    (Q : outcome unit * St → Prop) :
  Q (Raise IndexError, st) → (∀ a, o = Return a → Q (k a st)) → Q (bind (lift o) k st).
Proof. intros Hraise Hret. destruct o as [a|[]]; simpl; [by apply Hret | done]. Qed.

(** The shape of what each scalar decoder does to the state. *)
Lemma scalar_decoder_shape (st : St) (data : list Z) :
  (_handle_sysex_ping data st = (Raise IndexError, st) ∨
   ∃ n v, (n < length (nearest_obstacle (reg st)))%nat ∧
     _handle_sysex_ping data st =
       (Return (),
        mkSt (set_nearest_obstacle (<[n := v]> (nearest_obstacle (reg st))) (reg st))
             (heap st) (self st))) ∧
  (_handle_sysex_analog data st = (Raise IndexError, st) ∨
   ∃ n v, (n < length (analog_value (reg st)))%nat ∧
     _handle_sysex_analog data st =
       (Return (),
        mkSt (set_analog_value (<[n := v]> (analog_value (reg st))) (reg st))
             (heap st) (self st))) ∧
  (_handle_sysex_digital data st = (Raise IndexError, st) ∨
   ∃ n v, (n < length (digital_value (reg st)))%nat ∧
     _handle_sysex_digital data st =
       (Return (),
        mkSt (set_digital_value (<[n := v]> (digital_value (reg st))) (reg st))
             (heap st) (self st))) ∧
  (_handle_sysex_broadcast data st = (Raise IndexError, st) ∨
   ∃ n, (n < length (live_robots (reg st)))%nat ∧
     _handle_sysex_broadcast data st =
       (Return (),
        mkSt (set_live_robots (<[n := 1]> (live_robots (reg st))) (reg st))
             (heap st) (self st))).
Proof.
  unfold _handle_sysex_ping, _handle_sysex_analog, _handle_sysex_digital,
    _handle_sysex_broadcast.
  repeat split;
    repeat (apply bind_lift_effect; [by left | intros ? _]).
  - destruct (store_registry_effect nearest_obstacle set_nearest_obstacle a1
                ((a ≪ 7) + a0) st) as [? | (n & ? & ?)]; [by left | right; eauto].
  - destruct (store_registry_effect analog_value set_analog_value a1
                ((a ≪ 7) + a0) st) as [? | (n & ? & ?)]; [by left | right; eauto].
  - destruct (store_registry_effect digital_value set_digital_value a0 a st)
      as [? | (n & ? & ?)]; [by left | right; eauto].
  - destruct (store_registry_effect live_robots set_live_robots a 1 st)
      as [? | (n & ? & ?)]; [by left | right; eauto].
Qed.

(** X3. Whatever its payload, a scalar decoder either raises
    [IndexError] and leaves the state as it was, or returns after
    overwriting exactly one existing slot of its own class list: ping
    writes [nearest_obstacle], analog [analog_value], digital
    [digital_value], broadcast the constant 1 into [live_robots].  The
    other three lists, every list object and the instance are never
    touched. *)
Theorem scalar_decoder_effect (st : St) (data : list Z) :
  (_handle_sysex_ping data st = (Raise IndexError, st) ∨
   ∃ n v, (n < length (nearest_obstacle (reg st)))%nat ∧
     _handle_sysex_ping data st =
       (Return (),
        mkSt (set_nearest_obstacle (<[n := v]> (nearest_obstacle (reg st))) (reg st))
             (heap st) (self st))) ∧
  (_handle_sysex_analog data st = (Raise IndexError, st) ∨
   ∃ n v, (n < length (analog_value (reg st)))%nat ∧
     _handle_sysex_analog data st =
       (Return (),
        mkSt (set_analog_value (<[n := v]> (analog_value (reg st))) (reg st))
             (heap st) (self st))) ∧
  (_handle_sysex_digital data st = (Raise IndexError, st) ∨
   ∃ n v, (n < length (digital_value (reg st)))%nat ∧
     _handle_sysex_digital data st =
       (Return (),
        mkSt (set_digital_value (<[n := v]> (digital_value (reg st))) (reg st))
             (heap st) (self st))) ∧
  (_handle_sysex_broadcast data st = (Raise IndexError, st) ∨
   ∃ n, (n < length (live_robots (reg st)))%nat ∧
     _handle_sysex_broadcast data st =
       (Return (),
        mkSt (set_live_robots (<[n := 1]> (live_robots (reg st))) (reg st))
             (heap st) (self st))).
Proof. apply scalar_decoder_shape. Qed.

(** ** How scalar frames compose *)

(** Evaluates well-formed scalar frames one after the other, innermost
    state first. *)
Ltac scalar_frame_at s :=
  let side := (cbn; rewrite ?length_insert; (done || lia)) in
  first [ rewrite (ping_eq s) by side
        | rewrite (analog_eq s) by side
        | rewrite (digital_eq s) by side
        | rewrite (broadcast_eq s) by side ];
  cbn [fst snd reg heap self].

Ltac run_scalar_frames :=
  cbn [run perform];
  rewrite ?dispatch_ping, ?dispatch_analog, ?dispatch_digital, ?dispatch_broadcast;
  repeat match goal with
         | |- context [_handle_sysex_ping _ ?s] => progress scalar_frame_at s
         | |- context [_handle_sysex_analog _ ?s] => progress scalar_frame_at s
         | |- context [_handle_sysex_digital _ ?s] => progress scalar_frame_at s
         | |- context [_handle_sysex_broadcast _ ?s] => progress scalar_frame_at s
         end.

(** X4. Frames for the class lists compose as stores do: of two frames
    of the same command for the same robot the later one wins (and a
    repeated broadcast changes nothing more); frames of the same command
    for different robots commute; frames of different commands commute
    whatever their robots. *)
Theorem scalar_frames_compose (st : St) (a b c d r r' : Z) :
  wf_registry (reg st) → 0 ≤ r ≤ 127 → 0 ≤ r' ≤ 127 →
  (run [Frame 0x03 [a; b; r]; Frame 0x03 [c; d; r]] st = run [Frame 0x03 [c; d; r]] st ∧
   run [Frame 0x06 [a; b; r]; Frame 0x06 [c; d; r]] st = run [Frame 0x06 [c; d; r]] st ∧
   run [Frame 0x07 [a; r]; Frame 0x07 [c; r]] st = run [Frame 0x07 [c; r]] st ∧
   run [Frame 0x09 [r]; Frame 0x09 [r]] st = run [Frame 0x09 [r]] st) ∧
  (r ≠ r' →
   run [Frame 0x03 [a; b; r]; Frame 0x03 [c; d; r']] st =
     run [Frame 0x03 [c; d; r']; Frame 0x03 [a; b; r]] st ∧
   run [Frame 0x06 [a; b; r]; Frame 0x06 [c; d; r']] st =
     run [Frame 0x06 [c; d; r']; Frame 0x06 [a; b; r]] st ∧
   run [Frame 0x07 [a; r]; Frame 0x07 [c; r']] st =
     run [Frame 0x07 [c; r']; Frame 0x07 [a; r]] st ∧
   run [Frame 0x09 [r]; Frame 0x09 [r']] st = run [Frame 0x09 [r']; Frame 0x09 [r]] st) ∧
  (run [Frame 0x03 [a; b; r]; Frame 0x06 [c; d; r']] st =
     run [Frame 0x06 [c; d; r']; Frame 0x03 [a; b; r]] st ∧
   run [Frame 0x03 [a; b; r]; Frame 0x07 [c; r']] st =
     run [Frame 0x07 [c; r']; Frame 0x03 [a; b; r]] st ∧
   run [Frame 0x03 [a; b; r]; Frame 0x09 [r']] st =
     run [Frame 0x09 [r']; Frame 0x03 [a; b; r]] st ∧
   run [Frame 0x06 [a; b; r]; Frame 0x07 [c; r']] st =
     run [Frame 0x07 [c; r']; Frame 0x06 [a; b; r]] st ∧
   run [Frame 0x06 [a; b; r]; Frame 0x09 [r']] st =
     run [Frame 0x09 [r']; Frame 0x06 [a; b; r]] st ∧
   run [Frame 0x07 [a; r]; Frame 0x09 [r']] st =
     run [Frame 0x09 [r']; Frame 0x07 [a; r]] st).
Proof.
  intros (Hno & Han & Hdg & Hlv) Hr Hr'.
  split; [|split].
  - repeat split; run_scalar_frames;
      unfold set_nearest_obstacle, set_analog_value, set_digital_value, set_live_robots;
      cbn; by rewrite list_insert_insert_eq.
  - intros Hne. assert (Z.to_nat r ≠ Z.to_nat r') by lia.
    repeat split; run_scalar_frames;
      unfold set_nearest_obstacle, set_analog_value, set_digital_value, set_live_robots;
      cbn; by rewrite list_insert_insert_ne.
  - repeat split; by run_scalar_frames.
Qed.

Lemma scalar_frames_compose_witness :
  wf_registry (reg st0) ∧ 0 ≤ 5 ≤ 127 ∧ 0 ≤ 9 ≤ 127 ∧ 5 ≠ 9 ∧
  run [Frame 0x03 [0; 7; 5]; Frame 0x03 [1; 0; 5]] st0 = run [Frame 0x03 [1; 0; 5]] st0 ∧
  run [Frame 0x03 [0; 7; 5]; Frame 0x03 [1; 0; 9]] st0 =
    run [Frame 0x03 [1; 0; 9]; Frame 0x03 [0; 7; 5]] st0.
Proof.
  assert (wf_registry (reg st0)) as Hwf by apply wf_initial_registry.
  assert (0 ≤ 5 ≤ 127) as H5 by lia. assert (0 ≤ 9 ≤ 127) as H9 by lia.
  assert (5 ≠ 9) as Hne by lia.
  do 4 (split; [done |]).
  destruct (scalar_frames_compose st0 0 7 1 0 5 9 Hwf H5 H9)
    as ((Hlast & _) & Hcomm & _).
  split; [exact Hlast | exact (proj1 (Hcomm Hne))].
Defined.

(** ** Invariants of the class lists *)

Global Instance keeps_preorder (P : St → Prop) : PreOrder (keeps P).
Proof.
  split.
  - by intros st HP.
  - intros st1 st2 st3 H12 H23 HP. by apply H23, H12.
Qed.

(** A property of the class lists and the heap that every operation
    keeps is kept by every call on a session. *)
Lemma call_keeps {A} (P : Registry → Heap → Prop) (s : nat) (m : M A)
    (p p' : Process) (out : outcome A) :
  preserves (keeps (λ st, P (reg st) (heap st))) m →
  call s m p = Some (out, p') →
  P (class_attrs p) (objects p) → P (class_attrs p') (objects p').
Proof.
  intros Hm Hcall HP. unfold call in Hcall.
  destruct (sessions p !! s) as [b|]; [|done].
  specialize (Hm (mkSt (class_attrs p) (objects p) b) HP).
  destruct (m _) as [out' st']. by simplify_eq.
Qed.

Lemma keeps_same_reg (P : Registry → Prop) (st st' : St) :
  reg st' = reg st → keeps (λ st, P (reg st)) st st'.
Proof. intros Heq HP. by rewrite Heq. Qed.

Lemma flags_binary_store_live (i : Z) :
  preserves (keeps (λ st, flags_binary (reg st)))
    (store_registry live_robots set_live_robots i 1).
Proof.
  intros st Hflags. unfold store_registry.
  destruct (setitem _ _ _) as [xs|] eqn:Hxs; [|done]. simpl.
  unfold setitem in Hxs. destruct (index _ _) as [m|]; [|done].
  injection Hxs as <-. intros n v Hv. simpl in Hv.
  apply list_lookup_insert_Some in Hv as [(_ & <- & _) | (_ & Hv)]; [by right |].
  by apply (Hflags n).
Qed.

Lemma flags_binary_store_other get set (i v : Z) :
  (∀ xs r, live_robots (set xs r) = live_robots r) →
  preserves (keeps (λ st, flags_binary (reg st))) (store_registry get set i v).
Proof.
  intros Hset st Hflags. unfold store_registry.
  destruct (setitem _ _ _); simpl; [|done].
  unfold flags_binary. by rewrite Hset.
Qed.

Lemma flags_binary_perform (o : op) :
  preserves (keeps (λ st, flags_binary (reg st))) (perform o).
Proof.
  pose proof flags_binary_store_live.
  pose proof (λ i v, flags_binary_store_other nearest_obstacle set_nearest_obstacle i v
                       (λ _ _, eq_refl)).
  pose proof (λ i v, flags_binary_store_other analog_value set_analog_value i v
                       (λ _ _, eq_refl)).
  pose proof (λ i v, flags_binary_store_other digital_value set_digital_value i v
                       (λ _ _, eq_refl)).
  assert (∀ l i v, preserves (keeps (λ st, flags_binary (reg st))) (heap_setitem l i v))
    by (intros l i v st; apply (keeps_same_reg flags_binary), heap_setitem_self).
  assert (∀ r, preserves (keeps (λ st, flags_binary (reg st))) (pin_analog_value r))
    by (intros r st; apply (keeps_same_reg flags_binary), pin_analog_value_reg).
  assert (∀ r, preserves (keeps (λ st, flags_binary (reg st))) (pin_digital_value r))
    by (intros r st; apply (keeps_same_reg flags_binary), pin_digital_value_reg).
  destruct o as [cmd data| |]; simpl.
  - apply dispatch_cases; preserves_steps.
  - preserves_steps.
  - preserves_steps.
Qed.

Lemma reachable_process0 : reachable process0.
Proof.
  unfold reachable.
  pose (p1 := mkProcess initial_registry ∅ (<[1%nat := duinobot_board]> ∅)).
  apply (rtc_l _ _ p1).
  { apply (step_new initial_process 1 (layout_pins duinobot_layout "analog")
             (layout_pins duinobot_layout "digital")). done. }
  apply rtc_once.
  apply (step_new p1 0 (layout_pins duinobot_layout "analog")
           (layout_pins duinobot_layout "digital")). done.
Qed.

(** X5. In every reachable process each liveness flag is 0 or 1,
    whatever frames arrived: the only store into [live_robots] is the
    broadcast decoder's, and it stores the constant 1. *)
Theorem live_flags_are_binary (p : Process) :
  reachable p → flags_binary (class_attrs p).
Proof.
  unfold reachable. intros Hsteps.
  assert (∀ p0 p1, rtc step p0 p1 →
            flags_binary (class_attrs p0) → flags_binary (class_attrs p1)) as Hall.
  { induction 1 as [|p1 p2 p3 Hstep _ IH]; [done |].
    intros Hflags. apply IH. destruct Hstep as [p0 s a d Hs | p0 s o out p1 Hcall].
    - done.
    - by apply (call_keeps (λ r _, flags_binary r) s (perform o) p0 p1 out
                  (flags_binary_perform o)). }
  apply (Hall initial_process p Hsteps).
  intros n v Hv. left. simpl in Hv. unfold repeat_list in Hv.
  by apply lookup_replicate in Hv as [-> _].
Qed.

Lemma live_flags_are_binary_witness :
  reachable (process engine3) ∧
  flags_binary (class_attrs (process engine3)) ∧
  live_robots (class_attrs (process engine3)) !! 7%nat = Some 1 ∧
  live_robots (class_attrs (process engine3)) !! 8%nat = Some 0.
Proof.
  assert (reachable (process engine3)) as Hreach
    by apply (engine_reachable_inv engine3 engine_reachable_engine3).
  split; [done |].
  split; [exact (live_flags_are_binary (process engine3) Hreach) |].
  split; by vm_compute.
Defined.

(** ** Ranges of the readings *)

Lemma getitem_elem (xs : list Z) (i x : Z) : getitem xs i = Return x → x ∈ xs.
Proof.
  unfold getitem. destruct (index _ _) as [n|]; [|done].
  destruct (xs !! n) eqn:Hn; [|done]. intros [= <-].
  by apply list_elem_of_lookup_2 in Hn.
Qed.

Lemma preserves_bind_lift (R : St → St → Prop) `{!PreOrder R} {A B}
    (o : outcome A) (k : A → M B) :
  (∀ a, o = Return a → preserves R (k a)) → preserves R (bind (lift o) k).
Proof.
  intros Hk st. destruct o as [a|e]; simpl; [by apply Hk | reflexivity].
Qed.

Lemma seven_bit_elem (data : list Z) (i x : Z) :
  Forall seven_bit data → getitem data i = Return x → 0 ≤ x ≤ 127.
Proof.
  intros Hall Hget. apply getitem_elem in Hget.
  by apply (proj1 (Forall_forall _ _) Hall).
Qed.

Lemma insert_in_range (xs : list Z) (m : nat) (v lo hi : Z) :
  lo ≤ v ≤ hi → (∀ n w, xs !! n = Some w → lo ≤ w ≤ hi) →
  ∀ n w, <[m := v]> xs !! n = Some w → lo ≤ w ≤ hi.
Proof.
  intros Hv Hxs n w Hw.
  apply list_lookup_insert_Some in Hw as [(_ & <- & _) | (_ & Hw)]; [done |].
  by apply (Hxs n).
Qed.

Lemma ranged_store_nearest (i v : Z) :
  -1 ≤ v ≤ 16383 →
  preserves (keeps (λ st, ranged (reg st) (heap st)))
    (store_registry nearest_obstacle set_nearest_obstacle i v).
Proof.
  intros Hv st (Hno & Han & Hdg & Hh). unfold store_registry, setitem.
  destruct (index _ _) as [m|]; simpl; [|done].
  split; [|done]. simpl. by apply insert_in_range.
Qed.

Lemma ranged_store_analog (i v : Z) :
  -1 ≤ v ≤ 16383 →
  preserves (keeps (λ st, ranged (reg st) (heap st)))
    (store_registry analog_value set_analog_value i v).
Proof.
  intros Hv st (Hno & Han & Hdg & Hh). unfold store_registry, setitem.
  destruct (index _ _) as [m|]; simpl; [|done].
  split; [done |]. split; [|done]. simpl. by apply insert_in_range.
Qed.

Lemma ranged_store_digital (i v : Z) :
  -1 ≤ v ≤ 127 →
  preserves (keeps (λ st, ranged (reg st) (heap st)))
    (store_registry digital_value set_digital_value i v).
Proof.
  intros Hv st (Hno & Han & Hdg & Hh). unfold store_registry, setitem.
  destruct (index _ _) as [m|]; simpl; [|done].
  split; [done |]. split; [done |]. split; [|done]. simpl. by apply insert_in_range.
Qed.

Lemma ranged_store_live (i v : Z) :
  preserves (keeps (λ st, ranged (reg st) (heap st)))
    (store_registry live_robots set_live_robots i v).
Proof.
  intros st Hr. unfold store_registry, setitem.
  by destruct (index _ _) as [m|].
Qed.

Lemma ranged_heap_setitem (l : loc) (i v : Z) :
  -1 ≤ v ≤ 16383 →
  preserves (keeps (λ st, ranged (reg st) (heap st))) (heap_setitem l i v).
Proof.
  intros Hv st (Hno & Han & Hdg & Hh). unfold heap_setitem.
  destruct (heap st !! l) as [xs|] eqn:Hl; [|done]. unfold setitem.
  destruct (index _ _) as [m|]; simpl; [|done].
  do 3 (split; [done |]). intros l0 ys n w Hys Hw.
  apply lookup_insert_Some in Hys as [[<- <-] | [_ Hys]].
  - apply (insert_in_range xs m v (-1) 16383 Hv (λ n w, Hh l xs n w Hl) n w Hw).
  - by apply (Hh l0 ys n w).
Qed.

Lemma ranged_alloc_minus_one (h : Heap) (r : Registry) (l : loc) (k : nat) :
  ranged r h → ranged r (<[l := repeat_list (-1) k]> h).
Proof.
  intros (Hno & Han & Hdg & Hh). do 3 (split; [done |]).
  intros l0 ys n w Hys Hw.
  apply lookup_insert_Some in Hys as [[<- <-] | [_ Hys]].
  - unfold repeat_list in Hw. apply lookup_replicate in Hw as [-> _]. lia.
  - by apply (Hh l0 ys n w).
Qed.

Lemma ranged_pin_analog_value (robotid : Z) :
  preserves (keeps (λ st, ranged (reg st) (heap st))) (pin_analog_value robotid).
Proof.
  intros st Hr. destruct (_pin_analog_value (self st) !! robotid) as [l|] eqn:Hl.
  - by rewrite (pin_analog_value_present _ l).
  - rewrite pin_analog_value_absent by done. simpl. by apply ranged_alloc_minus_one.
Qed.

Lemma ranged_pin_digital_value (robotid : Z) :
  preserves (keeps (λ st, ranged (reg st) (heap st))) (pin_digital_value robotid).
Proof.
  intros st Hr. destruct (_pin_digital_value (self st) !! robotid) as [l|] eqn:Hl.
  - by rewrite (pin_digital_value_present _ l).
  - rewrite pin_digital_value_absent by done. simpl. by apply ranged_alloc_minus_one.
Qed.

Lemma ranged_perform (o : op) :
  seven_bit_op o →
  preserves (keeps (λ st, ranged (reg st) (heap st))) (perform o).
Proof.
  pose proof ranged_pin_analog_value. pose proof ranged_pin_digital_value.
  destruct o as [cmd data| |]; simpl; intros Hbytes; [|preserves_steps..].
  assert (∀ i x, getitem data i = Return x → 0 ≤ x ≤ 127) as Hbyte
    by (intros i x; by apply seven_bit_elem).
  apply dispatch_cases;
    unfold _handle_sysex_ping, _handle_sysex_analog, _handle_sysex_digital,
      _handle_sysex_broadcast, _handle_sysex_pin_commands.
  - apply (preserves_bind_lift _); intros msb Hm%Hbyte.
    apply (preserves_bind_lift _); intros lsb Hl%Hbyte.
    apply (preserves_bind_lift _); intros robot _.
    apply ranged_store_nearest. pose proof (shift7_add_range msb lsb Hm Hl). lia.
  - apply (preserves_bind_lift _); intros msb Hm%Hbyte.
    apply (preserves_bind_lift _); intros lsb Hl%Hbyte.
    apply (preserves_bind_lift _); intros robot _.
    apply ranged_store_analog. pose proof (shift7_add_range msb lsb Hm Hl). lia.
  - apply (preserves_bind_lift _); intros value Hv%Hbyte.
    apply (preserves_bind_lift _); intros robot _.
    apply ranged_store_digital. lia.
  - apply (preserves_bind_lift _); intros robot _. apply ranged_store_live.
  - apply (preserves_bind_lift _); intros subtype _.
    apply (preserves_if _).
    + apply (preserves_bind_lift _); intros msb Hm%Hbyte.
      apply (preserves_bind_lift _); intros lsb Hl%Hbyte.
      apply (preserves_bind_lift _); intros pin _.
      apply (preserves_bind_lift _); intros robot _. cbv zeta.
      apply (preserves_bind _); [done |]. intros arr.
      apply ranged_heap_setitem. pose proof (shift7_add_range msb lsb Hm Hl). lia.
    + apply (preserves_bind_lift _); intros subtype' _.
      apply (preserves_if _); [|apply (preserves_ret _)].
      apply (preserves_bind_lift _); intros value Hv%Hbyte.
      apply (preserves_bind_lift _); intros pin _.
      apply (preserves_bind_lift _); intros robot _.
      apply (preserves_bind _); [done |]. intros arr.
      apply ranged_heap_setitem. lia.
  - apply (preserves_ret _).
Qed.

Lemma step7_step (p p' : Process) : step7 p p' → step p p'.
Proof.
  intros [p0 s a d Hs | p0 s o out p1 _ Hcall]; [by apply step_new |].
  by apply (step_op _ s o out).
Qed.

(** X6. As long as every frame carries 7-bit bytes, every reading stays
    the initial -1 or a value such bytes can encode: distances and legacy
    analog values within [0, 16383], legacy digital values within
    [0, 127], and every slot of every per-pin array within [-1, 16383].
    This holds along all steps, also those in which a decoder raises. *)
Theorem readings_stay_in_range (p : Process) :
  rtc step7 initial_process p → ranged (class_attrs p) (objects p).
Proof.
  intros Hsteps.
  assert (∀ p0 p1, rtc step7 p0 p1 →
            ranged (class_attrs p0) (objects p0) →
            ranged (class_attrs p1) (objects p1)) as Hall.
  { induction 1 as [|p1 p2 p3 Hstep _ IH]; [done |].
    intros Hr. apply IH. destruct Hstep as [p0 s a d Hs | p0 s o out p1 Hop Hcall].
    - done.
    - by apply (call_keeps ranged s (perform o) p0 p1 out (ranged_perform o Hop)). }
  apply (Hall initial_process p Hsteps).
  assert (∀ k n v, repeat_list (-1) k !! n = Some v → v = -1) as Hminus.
  { intros k n v Hv. unfold repeat_list in Hv. by apply lookup_replicate in Hv as [-> _]. }
  split; [|split; [|split]]; simpl.
  - intros n v Hv. apply Hminus in Hv. lia.
  - intros n v Hv. apply Hminus in Hv. lia.
  - intros n v Hv. apply Hminus in Hv. lia.
  - intros l xs n v Hl. by rewrite lookup_empty in Hl.
Qed.

Lemma readings_stay_in_range_witness :
  ∃ p, rtc step7 initial_process p ∧
       getitem (nearest_obstacle (class_attrs p)) 2 = Return 128 ∧
       ranged (class_attrs p) (objects p).
Proof.
  pose (p1 := mkProcess initial_registry ∅ (<[0%nat := duinobot_board]> ∅)).
  assert (step7 initial_process p1) as Hnew.
  { apply (step7_new initial_process 0 (layout_pins duinobot_layout "analog")
             (layout_pins duinobot_layout "digital")). done. }
  destruct (call 0 (perform (Frame 0x03 [1; 0; 2])) p1) as [[out p2]|] eqn:Hcall;
    [| by vm_compute in Hcall].
  assert (rtc step7 initial_process p2) as Hsteps.
  { apply (rtc_l _ _ p1); [done |]. apply rtc_once.
    apply (step7_op p1 0 (Frame 0x03 [1; 0; 2]) out); [|done].
    simpl. repeat constructor; unfold seven_bit; lia. }
  exists p2. split; [done |]. split; [| exact (readings_stay_in_range p2 Hsteps)].
  apply (f_equal (fmap snd)) in Hcall. vm_compute in Hcall. by simplify_eq.
Defined.

(** ** The arrays behind the accessors *)

Lemma accessor_present (kd : kind) (robot : Z) (l : loc) (st : St) :
  dict_of kd (self st) !! robot = Some l → accessor kd robot st = (Return l, st).
Proof.
  destruct kd; simpl; [apply pin_analog_value_present | apply pin_digital_value_present].
Qed.

Lemma accessor_absent (kd : kind) (robot : Z) (st : St) :
  dict_of kd (self st) !! robot = None →
  accessor kd robot st =
    (Return (fresh (dom (heap st))),
     mkSt (reg st)
          (<[fresh (dom (heap st)) := repeat_list (-1) (length (pins_of kd (self st)))]>
             (heap st))
          (set_dict kd (<[robot := fresh (dom (heap st))]> (dict_of kd (self st)))
             (self st))).
Proof.
  destruct kd; simpl; [apply pin_analog_value_absent | apply pin_digital_value_absent].
Qed.

(** The list behind the accessor is the stored one, or a fresh list of
    -1 when there is none yet. *)
Lemma pin_array_eq (kd : kind) (robot : Z) (st : St) :
  pin_array kd robot st =
    match dict_of kd (self st) !! robot with
    | Some l => default [] (heap st !! l)
    | None => repeat_list (-1) (length (pins_of kd (self st)))
    end.
Proof.
  unfold pin_array. destruct (dict_of kd (self st) !! robot) as [l|] eqn:Hl.
  - by rewrite (accessor_present _ _ l).
  - rewrite accessor_absent by done. simpl. by rewrite lookup_insert_eq.
Qed.

Lemma getitem_nil (i : Z) : getitem [] i = Raise IndexError.
Proof.
  unfold getitem, index. simpl.
  by rewrite !bool_decide_eq_false_2 by lia.
Qed.

(** A read of a slot is a read of that list. *)
Lemma read_pin_array (kd : kind) (robot pin : Z) (st : St) :
  fst (read_pin kd robot pin st) = getitem (pin_array kd robot st) pin.
Proof.
  rewrite pin_array_eq.
  destruct kd; simpl; [rewrite read_pin_analog_fst | rewrite read_pin_digital_fst];
    (destruct (_ !! robot) as [l|]; [|done]); unfold heap_getitem;
    (destruct (heap st !! l); [done | by rewrite getitem_nil]).
Qed.

Lemma pin_array_length (kd : kind) (robot : Z) (st : St) :
  wf_board (heap st) (self st) →
  length (pin_array kd robot st) = length (pins_of kd (self st)).
Proof.
  intros Hwf. rewrite pin_array_eq.
  destruct (dict_of kd (self st) !! robot) as [l|] eqn:Hl.
  - destruct (proj1 (wf_board_kinds _ _) Hwf kd robot l Hl) as (xs & -> & Hlen). done.
  - apply length_replicate.
Qed.

(** X7. In every reachable process, for every session, both kinds and
    every robot id (seen before or not), the array the accessor hands
    out has exactly one slot per configured pin of that kind: a read at
    a pin index below the pin count returns a value, a read at or
    beyond it raises [IndexError]. *)
Theorem pin_arrays_always_sized (p : Process) (s : nat) (b : Board)
    (kd : kind) (robot pin : Z) :
  reachable p → sessions p !! s = Some b →
  length (pin_array kd robot (mkSt (class_attrs p) (objects p) b)) =
    length (pins_of kd b) ∧
  (0 ≤ pin < Z.of_nat (length (pins_of kd b)) →
     ∃ v, observe s (read_pin kd robot pin) p = Some (Return v)) ∧
  (Z.of_nat (length (pins_of kd b)) ≤ pin →
     observe s (read_pin kd robot pin) p = Some (Raise IndexError)).
Proof.
  intros Hreach Hb.
  pose proof (wf_alloc p (reachable_wf_process p Hreach) s b Hb) as Hwf.
  pose proof (pin_array_length kd robot (mkSt (class_attrs p) (objects p) b) Hwf)
    as Hlen. simpl in Hlen.
  split; [done |]. rewrite (observe_eq _ _ _ b), read_pin_array by done.
  set (xs := pin_array kd robot _) in *.
  split; intros Hpin.
  - destruct (xs !! Z.to_nat pin) as [v|] eqn:Hv.
    + exists v. f_equal. apply getitem_nonneg; [lia | done].
    + apply lookup_ge_None in Hv. lia.
  - f_equal. apply getitem_beyond. lia.
Qed.

Lemma pin_arrays_always_sized_witness :
  reachable process0 ∧ sessions process0 !! 1%nat = Some duinobot_board ∧
  0 ≤ 6 < Z.of_nat (length (pins_of KAnalog duinobot_board)) ∧
  Z.of_nat (length (pins_of KAnalog duinobot_board)) ≤ 7 ∧
  (∃ v, observe 1 (read_pin KAnalog 42 6) process0 = Some (Return v)) ∧
  observe 1 (read_pin KAnalog 42 7) process0 = Some (Raise IndexError).
Proof.
  assert (sessions process0 !! 1%nat = Some duinobot_board) as Hb by reflexivity.
  assert (0 ≤ 6 < Z.of_nat (length (pins_of KAnalog duinobot_board))) as H6
    by (vm_compute; by split).
  assert (Z.of_nat (length (pins_of KAnalog duinobot_board)) ≤ 7) as H7
    by (by vm_compute).
  split; [apply reachable_process0 |]. do 3 (split; [done |]).
  split.
  - exact (proj1 (proj2 (pin_arrays_always_sized process0 1 duinobot_board KAnalog 42 6
                           reachable_process0 Hb)) H6).
  - exact (proj2 (proj2 (pin_arrays_always_sized process0 1 duinobot_board KAnalog 42 7
                           reachable_process0 Hb)) H7).
Defined.

(** ** What a pin command changes *)

Lemma wf_board_lookup (h : Heap) (b : Board) (kd : kind) (k : Z) (l : loc) :
  wf_board h b → dict_of kd b !! k = Some l →
  ∃ xs, h !! l = Some xs ∧ length xs = length (pins_of kd b).
Proof. intros Hwf. by apply (proj1 (wf_board_kinds h b) Hwf). Qed.

(** A store through the accessor overwrites slot [pin] of the array of
    that kind and robot (a no-op on the array when [pin] is beyond it)
    and leaves every other array as it was. *)
Lemma store_via_accessor (kd : kind) (robot pin v : Z) (st : St) :
  wf_board (heap st) (self st) → sep_board (self st) → 0 ≤ pin →
  let st' := snd ((arr <- accessor kd robot ;; heap_setitem arr pin v) st) in
  pin_array kd robot st' = <[Z.to_nat pin := v]> (pin_array kd robot st) ∧
  (∀ kd' r', (kd', r') ≠ (kd, robot) → pin_array kd' r' st' = pin_array kd' r' st).
Proof.
  intros Hwf Hsep Hpin. unfold bind. cbv zeta.
  destruct (dict_of kd (self st) !! robot) as [l|] eqn:Hl.
  - rewrite (accessor_present _ _ l) by done.
    destruct (wf_board_lookup _ _ _ _ _ Hwf Hl) as (xs & Hxs & Hlen).
    assert (pin_array kd robot st = xs) as Hbefore
      by (by rewrite pin_array_eq, Hl, Hxs).
    destruct (decide (pin < Z.of_nat (length xs))) as [Hin|Hout].
    + rewrite (heap_setitem_in_range _ _ _ xs) by (done || lia). simpl. split.
      * rewrite pin_array_eq. simpl. by rewrite Hl, lookup_insert_eq, Hbefore.
      * intros kd' r' Hne. rewrite !pin_array_eq. simpl.
        destruct (dict_of kd' (self st) !! r') as [l'|] eqn:Hl'; [|done].
        rewrite lookup_insert_ne; [done |]. intros <-.
        destruct (Hsep kd robot kd' r' l Hl Hl') as [-> ->]. done.
    + rewrite (heap_setitem_beyond _ _ _ xs) by (done || lia). simpl.
      split; [|done]. rewrite Hbefore. symmetry. apply list_insert_ge. lia.
  - rewrite accessor_absent by done.
    pose proof (fresh_loc_unused (heap st)) as Hfresh.
    set (f := fresh (dom (heap st))) in *.
    set (rep := repeat_list (-1) (length (pins_of kd (self st)))).
    assert (pin_array kd robot st = rep) as Hbefore
      by (by rewrite pin_array_eq, Hl).
    assert (∀ st1 h1 kd' r',
      (kd', r') ≠ (kd, robot) → (∀ l', l' ≠ f → h1 !! l' = heap st !! l') →
      pin_array kd' r'
        (mkSt st1 h1 (set_dict kd (<[robot := f]> (dict_of kd (self st))) (self st))) =
      pin_array kd' r' st) as Hothers.
    { intros st1 h1 kd' r' Hne Hh1. rewrite !pin_array_eq. simpl.
      rewrite dict_of_set_dict, pins_of_set_dict.
      assert ((if decide (kd' = kd)
               then <[robot := f]> (dict_of kd (self st))
               else dict_of kd' (self st)) !! r' = dict_of kd' (self st) !! r') as ->.
      { case_decide as Hkd; [|done]. subst kd'.
        rewrite lookup_insert_ne; [done | congruence]. }
      destruct (dict_of kd' (self st) !! r') as [l'|] eqn:Hl'; [|done].
      rewrite Hh1; [done |]. intros ->.
      destruct (wf_board_lookup _ _ _ _ _ Hwf Hl') as (ys & Hys & _). congruence. }
    destruct (decide (pin < Z.of_nat (length rep))) as [Hin|Hout].
    + rewrite (heap_setitem_in_range _ _ _ rep)
        by (simpl; (apply lookup_insert_eq || lia)). simpl. split.
      * rewrite pin_array_eq. simpl.
        rewrite dict_of_set_dict, decide_True by done.
        by rewrite !lookup_insert_eq, Hbefore.
      * intros kd' r' Hne. apply Hothers; [done |].
        intros l' Hl'. by rewrite !lookup_insert_ne.
    + rewrite (heap_setitem_beyond _ _ _ rep)
        by (simpl; (apply lookup_insert_eq || lia)). simpl. split.
      * rewrite pin_array_eq. simpl.
        rewrite dict_of_set_dict, decide_True by done.
        rewrite !lookup_insert_eq, Hbefore. simpl.
        symmetry. apply list_insert_ge. lia.
      * intros kd' r' Hne. apply Hothers; [done |].
        intros l' Hl'. by rewrite lookup_insert_ne.
Qed.

Lemma pin_commands_analog_run (st : St) (msb lsb pin robot : Z) :
  _handle_sysex_pin_commands [0x01; msb; lsb; pin; robot] st =
    (arr <- accessor KAnalog robot ;; heap_setitem arr pin ((msb ≪ 7) + lsb)) st.
Proof.
  unfold _handle_sysex_pin_commands. read_payload.
  rewrite bool_decide_eq_true_2 by done. by read_payload.
Qed.

Lemma pin_commands_digital_run (st : St) (value pin robot : Z) :
  _handle_sysex_pin_commands [0x02; value; pin; robot] st =
    (arr <- accessor KDigital robot ;; heap_setitem arr pin value) st.
Proof.
  unfold _handle_sysex_pin_commands. read_payload.
  rewrite bool_decide_eq_false_2 by done. read_payload.
  rewrite bool_decide_eq_true_2 by done. by read_payload.
Qed.

(** X8. On a well-formed session, a get-analog pin command for robot
    [r] and pin index [pin >= 0] changes one thing only: slot [pin] of
    the analog array of [r] now holds [(msb << 7) + lsb] when [pin] is
    below the pin count, and that array is as before when it is not (the
    decoder has raised).  Every other slot of that array, the analog
    arrays of all other robots and all digital arrays read as before;
    whether arrays had been allocated or not makes no difference.  The
    same holds for a get-digital command, with the kinds exchanged. *)
Theorem pin_command_changes_one_slot (st : St) (msb lsb value pin robot : Z) :
  wf_board (heap st) (self st) → sep_board (self st) → 0 ≤ pin →
  (let st' := snd (_handle_sysex_pin_commands [0x01; msb; lsb; pin; robot] st) in
   (pin < Z.of_nat (length (analog (self st))) →
      pin_array KAnalog robot st' =
        <[Z.to_nat pin := (msb ≪ 7) + lsb]> (pin_array KAnalog robot st)) ∧
   (Z.of_nat (length (analog (self st))) ≤ pin →
      pin_array KAnalog robot st' = pin_array KAnalog robot st) ∧
   (∀ kd r, (kd, r) ≠ (KAnalog, robot) → pin_array kd r st' = pin_array kd r st)) ∧
  (let st' := snd (_handle_sysex_pin_commands [0x02; value; pin; robot] st) in
   (pin < Z.of_nat (length (digital (self st))) →
      pin_array KDigital robot st' =
        <[Z.to_nat pin := value]> (pin_array KDigital robot st)) ∧
   (Z.of_nat (length (digital (self st))) ≤ pin →
      pin_array KDigital robot st' = pin_array KDigital robot st) ∧
   (∀ kd r, (kd, r) ≠ (KDigital, robot) → pin_array kd r st' = pin_array kd r st)).
Proof.
  intros Hwf Hsep Hpin. cbv zeta.
  rewrite pin_commands_analog_run, pin_commands_digital_run.
  destruct (store_via_accessor KAnalog robot pin ((msb ≪ 7) + lsb) st Hwf Hsep Hpin)
    as [Ha Hao].
  destruct (store_via_accessor KDigital robot pin value st Hwf Hsep Hpin) as [Hd Hdo].
  pose proof (pin_array_length KAnalog robot st Hwf) as Hla.
  pose proof (pin_array_length KDigital robot st Hwf) as Hld. simpl in Hla, Hld.
  repeat split; try done.
  - intros Hout. rewrite Ha. apply list_insert_ge. lia.
  - intros Hout. rewrite Hd. apply list_insert_ge. lia.
Qed.

Lemma sep_board_new (a d : list Z) : sep_board (new_board a d).
Proof. intros kd1 k1 kd2 k2 l Hl. destruct kd1; simpl in Hl; by rewrite lookup_empty in Hl. Qed.

(** Every session of a reachable process is well formed in the sense
    the theorems on pin commands ask for. *)
Lemma reachable_session_wf (p : Process) (s : nat) (b : Board) :
  reachable p → sessions p !! s = Some b → wf_board (objects p) b ∧ sep_board b.
Proof.
  intros Hreach Hb. pose proof (reachable_wf_process p Hreach) as Hwf.
  split; [by apply (wf_alloc p Hwf s) |].
  intros kd1 k1 kd2 k2 l Hl1 Hl2.
  by destruct (wf_sep p Hwf s b kd1 k1 s b kd2 k2 l) as (_ & ? & ?).
Qed.

Lemma pin_command_changes_one_slot_witness :
  wf_board (heap st0) (self st0) ∧ sep_board (self st0) ∧ 0 ≤ 3 ∧
  3 < Z.of_nat (length (digital (self st0))) ∧
  pin_array KDigital 4 st1 = <[3%nat := 1]> (repeat_list (-1) 19) ∧
  pin_array KDigital 5 st1 = repeat_list (-1) 19 ∧
  pin_array KAnalog 4 st1 = repeat_list (-1) 7.
Proof.
  assert (wf_board (heap st0) (self st0)) as Hwf by apply wf_st0.
  assert (sep_board (self st0)) as Hsep by apply sep_board_new.
  assert (0 ≤ 3) as H3 by lia.
  assert (3 < Z.of_nat (length (digital (self st0)))) as Hin by (by vm_compute).
  do 4 (split; [done |]).
  destruct (pin_command_changes_one_slot st0 0 0 1 3 4 Hwf Hsep H3)
    as (_ & Hslot & _ & Hothers).
  unfold st1. split; [|split].
  - by rewrite (Hslot Hin).
  - by rewrite (Hothers KDigital 5).
  - by rewrite (Hothers KAnalog 4).
Defined.

(** ** Calls that change no array *)

(** X9. Lazy allocation cannot be observed: on a well-formed session a
    call of either accessor, for any robot id, leaves the class lists
    alone and leaves every array of every kind and robot (the one asked
    for included) reading as before; and the four scalar decoders,
    whatever their payload, change no array either. *)
Theorem arrays_unchanged_by_other_calls (st : St) (kd' : kind) (robot' : Z)
    (data : list Z) (kd : kind) (robot : Z) :
  wf_board (heap st) (self st) →
  reg (snd (accessor kd' robot' st)) = reg st ∧
  pin_array kd robot (snd (accessor kd' robot' st)) = pin_array kd robot st ∧
  pin_array kd robot (snd (_handle_sysex_ping data st)) = pin_array kd robot st ∧
  pin_array kd robot (snd (_handle_sysex_analog data st)) = pin_array kd robot st ∧
  pin_array kd robot (snd (_handle_sysex_digital data st)) = pin_array kd robot st ∧
  pin_array kd robot (snd (_handle_sysex_broadcast data st)) = pin_array kd robot st.
Proof.
  intros Hwf.
  destruct (scalar_decoder_shape st data) as (Hping & Han & Hdg & Hbc).
  split; [|split; [|repeat split]].
  - destruct kd'; simpl; [apply pin_analog_value_reg | apply pin_digital_value_reg].
  - destruct (dict_of kd' (self st) !! robot') as [l|] eqn:Hl.
    + by rewrite (accessor_present _ _ l).
    + rewrite accessor_absent by done.
      pose proof (fresh_loc_unused (heap st)) as Hfresh.
      rewrite !pin_array_eq. simpl. rewrite dict_of_set_dict, pins_of_set_dict.
      case_decide as Hkd.
      * subst kd'. destruct (decide (robot = robot')) as [->|Hne].
        { by rewrite lookup_insert_eq, lookup_insert_eq, Hl. }
        rewrite lookup_insert_ne by done.
        destruct (dict_of kd (self st) !! robot) as [l'|] eqn:Hl'; [|done].
        destruct (wf_board_lookup _ _ _ _ _ Hwf Hl') as (ys & Hys & _).
        rewrite lookup_insert_ne; [done | congruence].
      * destruct (dict_of kd (self st) !! robot) as [l'|] eqn:Hl'; [|done].
        destruct (wf_board_lookup _ _ _ _ _ Hwf Hl') as (ys & Hys & _).
        rewrite lookup_insert_ne; [done | congruence].
  - destruct Hping as [-> | (n & v & _ & ->)]; by rewrite ?pin_array_eq.
  - destruct Han as [-> | (n & v & _ & ->)]; by rewrite ?pin_array_eq.
  - destruct Hdg as [-> | (n & v & _ & ->)]; by rewrite ?pin_array_eq.
  - destruct Hbc as [-> | (n & _ & ->)]; by rewrite ?pin_array_eq.
Qed.

Lemma arrays_unchanged_by_other_calls_witness :
  wf_board (heap st0) (self st0) ∧
  pin_array KAnalog 4 (snd (accessor KAnalog 4 st0)) = pin_array KAnalog 4 st0 ∧
  pin_array KDigital 9 (snd (_handle_sysex_ping [1; 0; 2] st0)) = pin_array KDigital 9 st0.
Proof.
  assert (wf_board (heap st0) (self st0)) as Hwf by apply wf_st0.
  split; [done |]. split.
  - exact (proj1 (proj2 (arrays_unchanged_by_other_calls st0 KAnalog 4 [] KAnalog 4 Hwf))).
  - exact (proj1 (proj2 (proj2
             (arrays_unchanged_by_other_calls st0 KAnalog 4 [1; 0; 2] KDigital 9 Hwf)))).
Defined.

(** ** Pin commands that fail *)

(** X10. A pin-commands payload that is empty, or whose subtype is 0x01
    with fewer than four bytes after it, or 0x02 with fewer than three,
    makes the decoder raise [IndexError] before it touches anything: the
    state is exactly as before and no array is allocated. *)
Theorem pin_commands_short_payload (st : St) (rest : list Z) :
  _handle_sysex_pin_commands [] st = (Raise IndexError, st) ∧
  ((length rest < 4)%nat →
     _handle_sysex_pin_commands (0x01 :: rest) st = (Raise IndexError, st)) ∧
  ((length rest < 3)%nat →
     _handle_sysex_pin_commands (0x02 :: rest) st = (Raise IndexError, st)).
Proof.
  unfold _handle_sysex_pin_commands. split; [done |].
  split; intros Hlen; read_payload.
  - rewrite bool_decide_eq_true_2 by done.
    destruct rest as [|x1 [|x2 [|x3 [|x4 rest]]]]; simpl in Hlen; try lia;
      read_payload; by rewrite getitem_beyond by (simpl; lia).
  - rewrite bool_decide_eq_false_2 by done. read_payload.
    rewrite bool_decide_eq_true_2 by done.
    destruct rest as [|x1 [|x2 [|x3 rest]]]; simpl in Hlen; try lia;
      read_payload; by rewrite getitem_beyond by (simpl; lia).
Qed.

Lemma pin_commands_short_payload_witness :
  (length [0; 5; 2] < 4)%nat ∧ (length [1; 3] < 3)%nat ∧
  _handle_sysex_pin_commands [0x01; 0; 5; 2] st0 = (Raise IndexError, st0) ∧
  _handle_sysex_pin_commands [0x02; 1; 3] st0 = (Raise IndexError, st0).
Proof.
  assert (length [0; 5; 2] < 4)%nat as H4 by (simpl; lia).
  assert (length [1; 3] < 3)%nat as H3 by (simpl; lia).
  do 2 (split; [done |]). split.
  - exact (proj1 (proj2 (pin_commands_short_payload st0 [0; 5; 2])) H4).
  - exact (proj2 (proj2 (pin_commands_short_payload st0 [1; 3])) H3).
Defined.

(** X11. A pin command whose pin index is at or beyond the pin count
    raises [IndexError] only after the accessor has run: the state it
    leaves is the state a bare accessor call for that robot leaves.  So
    for a robot that had no array yet the failed command has allocated
    and stored one (all -1), while for a robot that had one the state is
    unchanged. *)
Theorem pin_command_beyond_leaves_allocation (st : St) (msb lsb value pin robot : Z) :
  wf_board (heap st) (self st) →
  (Z.of_nat (length (analog (self st))) ≤ pin →
     _handle_sysex_pin_commands [0x01; msb; lsb; pin; robot] st =
       (Raise IndexError, snd (pin_analog_value robot st)) ∧
     (_pin_analog_value (self st) !! robot = None →
        _pin_analog_value (self (snd (pin_analog_value robot st))) !! robot =
          Some (fresh (dom (heap st))) ∧
        heap (snd (pin_analog_value robot st)) !! fresh (dom (heap st)) =
          Some (repeat_list (-1) (length (analog (self st))))) ∧
     (is_Some (_pin_analog_value (self st) !! robot) →
        snd (pin_analog_value robot st) = st)) ∧
  (Z.of_nat (length (digital (self st))) ≤ pin →
     _handle_sysex_pin_commands [0x02; value; pin; robot] st =
       (Raise IndexError, snd (pin_digital_value robot st)) ∧
     (_pin_digital_value (self st) !! robot = None →
        _pin_digital_value (self (snd (pin_digital_value robot st))) !! robot =
          Some (fresh (dom (heap st))) ∧
        heap (snd (pin_digital_value robot st)) !! fresh (dom (heap st)) =
          Some (repeat_list (-1) (length (digital (self st))))) ∧
     (is_Some (_pin_digital_value (self st) !! robot) →
        snd (pin_digital_value robot st) = st)).
Proof.
  intros Hwf. split; intros Hpin.
  - split; [|split].
    + rewrite pin_commands_analog_run. unfold bind. simpl accessor.
      destruct (_pin_analog_value (self st) !! robot) as [l|] eqn:Hl.
      * rewrite (pin_analog_value_present _ l) by done.
        destruct (wf_board_lookup _ _ KAnalog _ _ Hwf Hl) as (xs & Hxs & Hlen).
        by rewrite (heap_setitem_beyond _ _ _ xs) by (done || simpl in Hlen; lia).
      * rewrite pin_analog_value_absent by done.
        erewrite heap_setitem_beyond;
          [done | simpl; apply lookup_insert_eq
          | unfold repeat_list; rewrite length_replicate; lia].
    + intros Hnone. rewrite pin_analog_value_absent by done. simpl.
      by rewrite !lookup_insert_eq.
    + intros [l Hl]. by rewrite (pin_analog_value_present _ l).
  - split; [|split].
    + rewrite pin_commands_digital_run. unfold bind. simpl accessor.
      destruct (_pin_digital_value (self st) !! robot) as [l|] eqn:Hl.
      * rewrite (pin_digital_value_present _ l) by done.
        destruct (wf_board_lookup _ _ KDigital _ _ Hwf Hl) as (xs & Hxs & Hlen).
        by rewrite (heap_setitem_beyond _ _ _ xs) by (done || simpl in Hlen; lia).
      * rewrite pin_digital_value_absent by done.
        erewrite heap_setitem_beyond;
          [done | simpl; apply lookup_insert_eq
          | unfold repeat_list; rewrite length_replicate; lia].
    + intros Hnone. rewrite pin_digital_value_absent by done. simpl.
      by rewrite !lookup_insert_eq.
    + intros [l Hl]. by rewrite (pin_digital_value_present _ l).
Qed.

Lemma pin_command_beyond_leaves_allocation_witness :
  wf_board (heap st0) (self st0) ∧
  Z.of_nat (length (analog (self st0))) ≤ 100 ∧
  _pin_analog_value (self st0) !! 4 = None ∧
  _handle_sysex_pin_commands [0x01; 0; 5; 100; 4] st0 =
    (Raise IndexError, snd (pin_analog_value 4 st0)) ∧
  heap (snd (pin_analog_value 4 st0)) !! fresh (dom (heap st0)) =
    Some (repeat_list (-1) (length (analog (self st0)))).
Proof.
  assert (wf_board (heap st0) (self st0)) as Hwf by apply wf_st0.
  assert (Z.of_nat (length (analog (self st0))) ≤ 100) as Hpin by (by vm_compute).
  assert (_pin_analog_value (self st0) !! 4 = None) as Hnone by reflexivity.
  do 3 (split; [done |]).
  destruct (proj1 (pin_command_beyond_leaves_allocation st0 0 5 0 100 4 Hwf) Hpin)
    as (Hrun & Halloc & _).
  split; [exact Hrun | exact (proj2 (Halloc Hnone))].
Defined.

(** ** What no operation ever does *)

Global Instance same_reg_preorder : PreOrder same_reg.
Proof.
  split; [by intros st |].
  intros st1 st2 st3 H12 H23. unfold same_reg in *. congruence.
Qed.

Global Instance objects_kept_preorder : PreOrder objects_kept.
Proof.
  split.
  - intros st l xs Hl. by exists xs.
  - intros st1 st2 st3 H12 H23 l xs Hl.
    destruct (H12 l xs Hl) as (ys & Hys & Hlen).
    destruct (H23 l ys Hys) as (zs & Hzs & Hlen'). exists zs. split; [done | congruence].
Qed.

Lemma objects_kept_same_heap (st st' : St) : heap st' = heap st → objects_kept st st'.
Proof. intros Heq l xs Hl. exists xs. by rewrite Heq. Qed.

Lemma objects_kept_heap_setitem (l : loc) (i v : Z) :
  preserves objects_kept (heap_setitem l i v).
Proof.
  intros st l0 ys Hys. unfold heap_setitem.
  destruct (heap st !! l) as [xs|] eqn:Hl; [|by exists ys].
  destruct (setitem _ _ _) as [xs'|] eqn:Hxs; [|by exists ys]. simpl.
  apply setitem_length in Hxs. destruct (decide (l = l0)) as [->|Hne].
  - rewrite lookup_insert_eq. exists xs'. split; [done | congruence].
  - rewrite lookup_insert_ne by done. by exists ys.
Qed.

Lemma objects_kept_accessor (kd : kind) (robotid : Z) :
  preserves objects_kept (accessor kd robotid).
Proof.
  intros st. destruct (dict_of kd (self st) !! robotid) as [l|] eqn:Hl.
  - rewrite (accessor_present _ _ l) by done. reflexivity.
  - rewrite accessor_absent by done. intros l0 ys Hys. simpl. exists ys.
    pose proof (fresh_loc_unused (heap st)).
    rewrite lookup_insert_ne; [done | congruence].
Qed.

Lemma objects_kept_perform (o : op) : preserves objects_kept (perform o).
Proof.
  assert (∀ get set i v, preserves objects_kept (store_registry get set i v))
    by (intros; intros st; apply objects_kept_same_heap, store_registry_self).
  pose proof objects_kept_heap_setitem.
  pose proof (objects_kept_accessor KAnalog). pose proof (objects_kept_accessor KDigital).
  destruct o as [cmd data| |]; simpl.
  - apply dispatch_cases; preserves_steps.
  - preserves_steps.
  - preserves_steps.
Qed.

Lemma same_reg_pin_commands (data : list Z) :
  preserves same_reg (_handle_sysex_pin_commands data).
Proof.
  assert (∀ l i v, preserves same_reg (heap_setitem l i v))
    by (intros l i v st; apply heap_setitem_self).
  assert (∀ r, preserves same_reg (pin_analog_value r))
    by (intros r st; apply pin_analog_value_reg).
  assert (∀ r, preserves same_reg (pin_digital_value r))
    by (intros r st; apply pin_digital_value_reg).
  preserves_steps.
Qed.

(** X12. No operation of this layer (a frame of any command with any
    payload, returning or raising, or an accessor call) ever removes or
    replaces an entry of the two dictionaries, deallocates a list
    object, changes the number of slots of one, or changes the pin lists
    of the board; and a pin-commands frame, whatever its payload, never
    changes the class-level lists. *)
Theorem operations_never_shrink (st : St) (o : op) (data : list Z) :
  dicts_kept st (snd (perform o st)) ∧
  objects_kept st (snd (perform o st)) ∧
  analog (self (snd (perform o st))) = analog (self st) ∧
  digital (self (snd (perform o st))) = digital (self st) ∧
  reg (snd (dispatch 0x0F data st)) = reg st.
Proof.
  destruct (frame_kept_perform o st) as (_ & _ & Hdicts & Ha & Hd).
  split; [done |]. split; [apply objects_kept_perform |].
  split; [done |]. split; [done |].
  rewrite dispatch_pin_commands. apply same_reg_pin_commands.
Qed.

(** ** The representation invariant *)

(** X13. Every process reachable from the initial one, by constructing
    sessions and running any operations (failing ones included), is well
    formed: the four class lists still have their 128 slots, every
    reference kept in a dictionary denotes a live list with one slot per
    configured pin, and no list object is kept twice (not by two
    sessions, not for two robots, not as both an analog and a digital
    array). *)
Theorem reachable_process_well_formed (p : Process) :
  reachable p → wf_process p.
Proof. apply reachable_wf_process. Qed.

Lemma reachable_process_well_formed_witness :
  reachable (process engine3) ∧
  wf_process (process engine3) ∧
  observe 0 (read_pin KDigital 4 3) (process engine3) = Some (Return 1) ∧
  observe 1 (read_pin KAnalog 4 2) (process engine3) = Some (Return 5) ∧
  ∃ l0 l1 xs0 xs1,
    (sessions (process engine3) !! 0%nat ≫= λ b, _pin_digital_value b !! 4) = Some l0 ∧
    (sessions (process engine3) !! 1%nat ≫= λ b, _pin_analog_value b !! 4) = Some l1 ∧
    objects (process engine3) !! l0 = Some xs0 ∧ length xs0 = 19%nat ∧
    objects (process engine3) !! l1 = Some xs1 ∧ length xs1 = 7%nat ∧
    l0 ≠ l1.
Proof.
  assert (reachable (process engine3)) as Hreach
    by apply (engine_reachable_inv engine3 engine_reachable_engine3).
  pose proof (reachable_process_well_formed (process engine3) Hreach) as Hwf.
  split; [done |]. split; [done |].
  split; [by vm_compute |]. split; [by vm_compute |].
  destruct (sessions (process engine3) !! 0%nat ≫= λ b, _pin_digital_value b !! 4)
    as [l0|] eqn:H0; [| by vm_compute in H0].
  destruct (sessions (process engine3) !! 1%nat ≫= λ b, _pin_analog_value b !! 4)
    as [l1|] eqn:H1; [| by vm_compute in H1].
  apply bind_Some in H0 as (b0 & Hb0 & Hl0).
  apply bind_Some in H1 as (b1 & Hb1 & Hl1).
  destruct (wf_alloc _ Hwf 0%nat b0 Hb0) as [_ Hd0].
  destruct (wf_alloc _ Hwf 1%nat b1 Hb1) as [Ha1 _].
  destruct (Hd0 4 l0 Hl0) as (xs0 & Hxs0 & Hlen0).
  destruct (Ha1 4 l1 Hl1) as (xs1 & Hxs1 & Hlen1).
  exists l0, l1, xs0, xs1.
  split; [done |]. split; [done |].
  split; [done |].
  split; [rewrite Hlen0; vm_compute in Hb0; by injection Hb0 as <- |].
  split; [done |].
  split; [rewrite Hlen1; vm_compute in Hb1; by injection Hb1 as <- |].
  intros ->.
  by destruct (wf_sep _ Hwf 0%nat b0 KDigital 4 1%nat b1 KAnalog 4 l1 Hb0 Hl0 Hb1 Hl1)
    as (? & _).
Defined.

(** ** Construction of a serial session *)

(** X14. The serial constructor prints a diagnostic exactly when opening
    the port raised [SerialException], and then exactly one: the
    permission message if and only if the device path exists and cannot
    be read and written, the connection message otherwise (so always for
    a missing path).  After the message it re-raises under [debug] and
    otherwise exits with status 1; any other exception propagates
    silently, debug or not. *)
Theorem serial_init_diagnostics (opening : open_outcome)
    (path_exists accessible debug : bool) :
  let '(printed, result) :=
    FirmataSerialBoard_init opening path_exists accessible debug in
  (length printed = 1%nat ↔ opening = RaisedSerialException) ∧
  (printed = [] ↔ opening ≠ RaisedSerialException) ∧
  (msg_no_permission ∈ printed ↔
     opening = RaisedSerialException ∧ path_exists = true ∧ accessible = false) ∧
  (msg_no_connection ∈ printed ↔
     opening = RaisedSerialException ∧ (path_exists = false ∨ accessible = true)) ∧
  (result = SerialConstructed ↔ opening = Opened) ∧
  (result = SerialExited 1 ↔ opening = RaisedSerialException ∧ debug = false) ∧
  (∀ status, result = SerialExited status → status = 1).
Proof.
  assert (msg_no_permission ≠ msg_no_connection) as Hne by done.
  destruct opening, path_exists, accessible, debug; simpl;
    rewrite ?list_elem_of_singleton, ?elem_of_nil;
    repeat split; try (intros; simplify_eq; done); try tauto;
    intuition (try done; try congruence).
Qed.

(** ** The request loop of the Tk thread *)

Lemma handed_app (log1 log2 : list SquareWheel.tk_call) :
  SquareWheel.handed (log1 ++ log2) = SquareWheel.handed log1 ++ SquareWheel.handed log2.
Proof. apply omap_app. Qed.

Lemma created_cons (e : SquareWheel.event) (es : list SquareWheel.event) :
  SquareWheel.created (e :: es) = SquareWheel.created [e] ++ SquareWheel.created es.
Proof. apply (omap_app _ [e] es). Qed.

Lemma handed_rearm (cb : SquareWheel.callback) :
  SquareWheel.handed [SquareWheel.After SquareWheel.TK_AFTER_INTERVAL cb] = [].
Proof. reflexivity. Qed.

Lemma handed_request (cb : SquareWheel.callback) :
  SquareWheel.handed [SquareWheel.After 0 cb] = [cb].
Proof. reflexivity. Qed.

Lemma sw_handle_conserves (e : SquareWheel.event) (g : SquareWheel.Gui) :
  SquareWheel.handed (SquareWheel.tk_log (SquareWheel.handle e g)) ++
    SquareWheel._request_queue (SquareWheel.handle e g) =
  SquareWheel.handed (SquareWheel.tk_log g) ++ SquareWheel._request_queue g ++
    SquareWheel.created [e].
Proof.
  destruct e as [i| | |]; simpl.
  - done.
  - rewrite app_nil_r. destruct (SquareWheel.armed g) as [|n]; [done |].
    unfold SquareWheel._tk_attend_requests. simpl.
    destruct (SquareWheel._terminate_thread g); simpl.
    + rewrite handed_app. by rewrite !app_nil_r.
    + destruct (SquareWheel._request_queue g) as [|request rest]; simpl.
      * rewrite handed_app, handed_rearm. by rewrite !app_nil_r.
      * rewrite !handed_app, handed_rearm, handed_request.
        by rewrite !app_nil_r, <- app_assoc.
  - by rewrite app_nil_r.
  - by rewrite app_nil_r.
Qed.


Lemma quit_not_appended (log : list SquareWheel.tk_call) (ms : Z)
    (cb : SquareWheel.callback) :
  SquareWheel.Quit ∈ log ++ [SquareWheel.After ms cb] → SquareWheel.Quit ∈ log.
Proof.
  intros [Hin | Hin]%elem_of_app; [done |].
  by apply list_elem_of_singleton in Hin.
Qed.

Lemma sw_handle_invariant (e : SquareWheel.event) (g : SquareWheel.Gui) :
  sw_inv g →
  sw_inv (SquareWheel.handle e g) ∧
  (e ≠ SquareWheel.Cleanup → SquareWheel._terminate_thread g = false →
     SquareWheel._terminate_thread (SquareWheel.handle e g) = false).
Proof.
  intros Hinv. pose proof Hinv as (Hone & Hquit & Hqueue).
  destruct e as [i| | |]; simpl.
  - split; [|done]. split; [done |]. split; [done |]. simpl.
    intros cb [Hin | ->%list_elem_of_singleton]%elem_of_app; [by apply Hqueue | done].
  - destruct (SquareWheel.armed g) as [|n] eqn:Harmed; [by split |].
    assert (SquareWheel.Quit ∉ SquareWheel.tk_log g) as Hnot.
    { intros Hin. destruct (Hquit Hin). lia. }
    specialize (Hone Hnot). injection Hone as ->.
    unfold SquareWheel._tk_attend_requests. simpl.
    destruct (SquareWheel._terminate_thread g) eqn:Hterm; simpl.
    + split; [|intros _ Hf; exact Hf]. split; [|split]; simpl.
      * intros Hnq. exfalso. apply Hnq. apply elem_of_app. right.
        by apply list_elem_of_singleton.
      * intros _. split; reflexivity.
      * exact Hqueue.
    + destruct (SquareWheel._request_queue g) as [|request rest] eqn:Hq; simpl.
      * split; [|intros _ _; reflexivity]. split; [|split]; simpl.
        -- intros _. reflexivity.
        -- intros Hin%quit_not_appended. done.
        -- intros cb Hin. by apply elem_of_nil in Hin.
      * assert (request ≠ SquareWheel.AttendRequests) as Hreq
          by (apply Hqueue; by left).
        destruct request as [|i]; [done |].
        split; [|intros _ _; reflexivity]. split; [|split]; simpl.
        -- intros _. reflexivity.
        -- intros Hin%quit_not_appended%quit_not_appended. done.
        -- intros cb Hin. apply Hqueue. by right.
  - split; [|intros Hc; by destruct Hc]. split; [|split]; simpl.
    + exact Hone.
    + intros Hin. by destruct (Hquit Hin).
    + exact Hqueue.
  - by split.
Qed.

Lemma sw_poll_invariant (es : list SquareWheel.event) (g : SquareWheel.Gui) :
  sw_inv g →
  sw_inv (SquareWheel.play es g) ∧
  (SquareWheel.Cleanup ∉ es → SquareWheel._terminate_thread g = false →
     SquareWheel._terminate_thread (SquareWheel.play es g) = false).
Proof.
  revert g. induction es as [|e es IH]; intros g Hinv; simpl; [by split |].
  destruct (sw_handle_invariant e g Hinv) as [Hinv' Hterm'].
  destruct (IH _ Hinv') as [Hfinal Hterm]. split; [done |].
  intros Hnc Ht. apply Hterm.
  - intros Hin. apply Hnc. by right.
  - apply Hterm'; [|done]. intros ->. apply Hnc. by left.
Qed.

(** X16. Once the loop has started, exactly one timer for
    [_tk_attend_requests] is pending after every sequence of events
    until the loop has quit, and none afterwards: each tick re-arms
    itself once.  The loop can only quit after [_tk_loop_cleanup] has
    been called; in particular an interrupt (whose handler returns that
    function without calling it) never sets the terminate event and the
    loop keeps polling. *)
Theorem poll_timer_armed_once (es : list SquareWheel.event) :
  let g := SquareWheel.play es SquareWheel.started in
  (SquareWheel.Quit ∉ SquareWheel.tk_log g → SquareWheel.armed g = 1%nat) ∧
  (SquareWheel.Quit ∈ SquareWheel.tk_log g →
     SquareWheel.armed g = 0%nat ∧ SquareWheel._terminate_thread g = true) ∧
  (SquareWheel.Cleanup ∉ es →
     SquareWheel._terminate_thread g = false ∧
     (SquareWheel.Quit ∉ SquareWheel.tk_log g) ∧
     SquareWheel.armed g = 1%nat).
Proof.
  assert (sw_inv SquareWheel.started) as Hstart.
  { split; [done |]. split; [by intros Hin%list_elem_of_singleton |].
    intros cb Hin. by apply elem_of_nil in Hin. }
  destruct (sw_poll_invariant es SquareWheel.started Hstart) as [(H1 & H2 & _) H3].
  cbv zeta. split; [done |]. split; [done |].
  intros Hnc. specialize (H3 Hnc eq_refl).
  assert (SquareWheel.Quit ∉ SquareWheel.tk_log (SquareWheel.play es SquareWheel.started))
    as Hnq.
  { intros Hin. destruct (H2 Hin) as [_ Ht]. congruence. }
  split; [done |]. split; [done |]. by apply H1.
Qed.

Lemma poll_timer_armed_once_witness :
  (SquareWheel.Cleanup ∉
     [SquareWheel.NewSenses 2; SquareWheel.TimerFires; SquareWheel.Sigint;
      SquareWheel.TimerFires]) ∧
  SquareWheel.armed
    (SquareWheel.play
       [SquareWheel.NewSenses 2; SquareWheel.TimerFires; SquareWheel.Sigint;
        SquareWheel.TimerFires] SquareWheel.started) = 1%nat ∧
  SquareWheel.handed
    (SquareWheel.tk_log
       (SquareWheel.play
          [SquareWheel.NewSenses 2; SquareWheel.TimerFires; SquareWheel.Sigint;
           SquareWheel.TimerFires] SquareWheel.started)) = [SquareWheel.SensesRun 2].
Proof.
  assert (SquareWheel.Cleanup ∉
            [SquareWheel.NewSenses 2; SquareWheel.TimerFires; SquareWheel.Sigint;
             SquareWheel.TimerFires]) as Hnc.
  { rewrite !elem_of_cons, elem_of_nil. intros [? | [? | [? | [? | []]]]]; done. }
  split; [done |]. split; [|reflexivity].
  exact (proj2 (proj2 (proj2 (proj2 (poll_timer_armed_once _)) Hnc))).
Defined.
